(** * nss-tlsd: the per-connection query pipeline of nss-tls

    A shallow embedding of [src/nss-tlsd.c]: the four GIO completion
    callbacks [on_incoming], [on_req], [on_res], [on_done] and the JSON array
    visitor [on_answer], together with the parts of the platform libraries
    they call (glibc's [inet_pton], json-glib's node accessors, GIO's bounded
    read, libsoup's send).

    The daemon is event driven.  Every callback is a function from the query
    structure and the completion the main loop delivers to the list of
    effects it performs and the next state of the session.  The effects kept
    are the log lines, the asynchronous operations started on the connection
    and towards the resolver, and what is done to the two things a session
    owns, its reference to the connection and the query structure.  The
    objects a callback creates for its own use (the JSON parser, a [GError],
    the URL string, the soup session and message) are not traced, and
    [soup_message_new] is taken to accept the URL: its prefix is fixed and
    the name lies in its query part. *)

From Stdlib Require Import ZArith Ascii String Floats.SpecFloat.
From stdpp Require Import base option list strings pretty gmap.

Local Open Scope Z_scope.
Set Warnings "-register-all".

(** ** Bytes and buffers *)

(** An octet, kept as an integer in [0, 255]. *)
Abbreviation octet := Z (only parsing).

(** [memcpy (dst, src, n)] on a destination at least [n] bytes long: the
    first [n] bytes are replaced, everything behind them is left alone. *)
Definition memcpy (dst src : list octet) (n : nat) : list octet :=
  take n src ++ drop n dst.

(** ** glibc: [inet_pton] (resolv/inet_pton.c) *)

Module Inet.

Definition AF_INET : Z := 2.
Definition AF_INET6 : Z := 10.

Definition NS_INADDRSZ : nat := 4.
Definition NS_IN6ADDRSZ : nat := 16.
Definition NS_INT16SZ : nat := 2.

Definition code (ch : ascii) : Z := Z.of_N (N_of_ascii ch).

Definition is_digit (ch : ascii) : bool :=
  (code "0" <=? code ch) && (code ch <=? code "9").

(** [hex_digit_value]: the digit's value, or [-1]. *)
Definition hex_digit_value (ch : ascii) : Z :=
  let c := code ch in
  if (code "0" <=? c) && (c <=? code "9") then c - code "0"
  else if (code "a" <=? c) && (c <=? code "f") then c - code "a" + 10
  else if (code "A" <=? c) && (c <=? code "F") then c - code "A" + 10
  else -1.

(** The local variables of [inet_pton4]: the scratch array [tmp], the write
    position [tp] as an index into it, [saw_digit] and [octets]. *)
Record pton4 := Pton4 {
  tmp4 : list octet;
  tp4 : nat;
  saw_digit : bool;
  octets : nat
}.

(** The [while (src < end)] loop of [inet_pton4] and the test behind it.
    [None] is [return 0]; [Some tmp] is the array that is copied out. *)
Fixpoint inet_pton4_loop (src : list ascii) (st : pton4) : option (list octet) :=
  match src with
  | [] => if (octets st <? 4)%nat then None else Some (tmp4 st)
  | ch :: src =>
      if is_digit ch then
        let cur := default 0 (tmp4 st !! tp4 st) in
        let new := cur * 10 + (code ch - code "0") in
        if saw_digit st && (cur =? 0) then None
        else if 255 <? new then None
        else
          let tmp := <[tp4 st := new]> (tmp4 st) in
          if saw_digit st then
            inet_pton4_loop src (Pton4 tmp (tp4 st) true (octets st))
          else if (4 <? S (octets st))%nat then None
          else inet_pton4_loop src (Pton4 tmp (tp4 st) true (S (octets st)))
      else if Ascii.eqb ch "." && saw_digit st then
        if (octets st =? 4)%nat then None
        else
          inet_pton4_loop src
            (Pton4 (<[S (tp4 st) := 0]> (tmp4 st)) (S (tp4 st)) false (octets st))
      else None
  end.

Definition inet_pton4 (src : list ascii) : option (list octet) :=
  inet_pton4_loop src (Pton4 (replicate NS_INADDRSZ 0) 0 false 0).

(** The local variables of [inet_pton6]; [curtok] is the text from the start
    of the current token to the end of the input. *)
Record pton6 := Pton6 {
  tmp6 : list octet;
  tp6 : nat;
  colonp : option nat;
  curtok : list ascii;
  xdigits_seen : nat;
  val : Z
}.

(** [*tp++ = val >> 8; *tp++ = val]. *)
Definition put16 (tmp : list octet) (tp : nat) (v : Z) : list octet :=
  <[S tp := Z.land v 255]> (<[tp := Z.land (Z.shiftr v 8) 255]> tmp).

(** What [inet_pton6] does once its loop is left. *)
Definition inet_pton6_finish (st : pton6) : option (list octet) :=
  let flushed :=
    if (0 <? xdigits_seen st)%nat then
      if (NS_IN6ADDRSZ <? tp6 st + NS_INT16SZ)%nat then None
      else Some (put16 (tmp6 st) (tp6 st) (val st), (tp6 st + NS_INT16SZ)%nat)
    else Some (tmp6 st, tp6 st) in
  match flushed with
  | None => None
  | Some (tmp, tp) =>
      let expanded :=
        match colonp st with
        | Some cp =>
            if (tp =? NS_IN6ADDRSZ)%nat then None
            else
              let n := (tp - cp)%nat in
              Some (take cp tmp
                      ++ replicate (NS_IN6ADDRSZ - n - cp) 0
                      ++ take n (drop cp tmp),
                    NS_IN6ADDRSZ)
        | None => Some (tmp, tp)
        end in
      match expanded with
      | None => None
      | Some (tmp, tp) =>
          if (tp =? NS_IN6ADDRSZ)%nat then Some tmp else None
      end
  end.

Fixpoint inet_pton6_loop (src : list ascii) (st : pton6) : option (list octet) :=
  match src with
  | [] => inet_pton6_finish st
  | ch :: src =>
      let digit := hex_digit_value ch in
      if 0 <=? digit then
        if (xdigits_seen st =? 4)%nat then None
        else
          let v := Z.lor (Z.shiftl (val st) 4) digit in
          if 65535 <? v then None
          else
            inet_pton6_loop src
              (Pton6 (tmp6 st) (tp6 st) (colonp st) (curtok st)
                     (S (xdigits_seen st)) v)
      else if Ascii.eqb ch ":" then
        if (xdigits_seen st =? 0)%nat then
          match colonp st with
          | Some _ => None
          | None =>
              inet_pton6_loop src
                (Pton6 (tmp6 st) (tp6 st) (Some (tp6 st)) src 0 (val st))
          end
        else
          match src with
          | [] => None
          | _ =>
              if (NS_IN6ADDRSZ <? tp6 st + NS_INT16SZ)%nat then None
              else
                inet_pton6_loop src
                  (Pton6 (put16 (tmp6 st) (tp6 st) (val st))
                         (tp6 st + NS_INT16SZ) (colonp st) src 0 0)
          end
      else if Ascii.eqb ch "." && (tp6 st + NS_INADDRSZ <=? NS_IN6ADDRSZ)%nat then
        match inet_pton4 (curtok st) with
        | Some quad =>
            inet_pton6_finish
              (Pton6 (take (tp6 st) (tmp6 st) ++ quad
                        ++ drop (tp6 st + NS_INADDRSZ) (tmp6 st))
                     (tp6 st + NS_INADDRSZ) (colonp st) (curtok st) 0 (val st))
        | None => None
        end
      else None
  end.

Definition inet_pton6 (src : list ascii) : option (list octet) :=
  let start := Pton6 (replicate NS_IN6ADDRSZ 0) 0 None in
  match src with
  | [] => None
  | ch :: rest =>
      if Ascii.eqb ch ":" then
        match rest with
        | ch' :: _ =>
            if Ascii.eqb ch' ":" then inet_pton6_loop rest (start rest 0%nat 0)
            else None
        | [] => None
        end
      else inet_pton6_loop src (start src 0%nat 0)
  end.

(** [inet_pton (af, src, dst)]: the returned [int] and the destination
    afterwards.  The address is assembled in a local array and copied out
    only on success, so a text that does not parse leaves [dst] as it was;
    an unknown family is [-1] (EAFNOSUPPORT). *)
Definition inet_pton (af : Z) (src : string) (dst : list octet) : Z * list octet :=
  if af =? AF_INET then
    match inet_pton4 (list_ascii_of_string src) with
    | Some tmp => (1, memcpy dst tmp NS_INADDRSZ)
    | None => (0, dst)
    end
  else if af =? AF_INET6 then
    match inet_pton6 (list_ascii_of_string src) with
    | Some tmp => (1, memcpy dst tmp NS_IN6ADDRSZ)
    | None => (0, dst)
    end
  else (-1, dst).

(** The invariant of [inet_pton6]'s loop: [tmp] keeps its size, [tp] stays
    inside it and [colonp] never lies behind [tp]. *)
Definition pton6_inv (st : pton6) : Prop :=
  length (tmp6 st) = NS_IN6ADDRSZ ∧ (tp6 st ≤ NS_IN6ADDRSZ)%nat ∧
  ∀ cp, colonp st = Some cp → (cp ≤ tp6 st)%nat.

End Inet.

(** ** json-glib: nodes and their accessors *)

Module Json.

(** A parsed JSON document.  An object keeps its members under distinct
    names, in the order they were inserted. *)
Inductive JsonNode :=
| JsonNull
| JsonBoolean (b : bool)
| JsonInt (i : Z)
| JsonDouble (d : spec_float)
| JsonString (s : string)
| JsonArray (elements : list JsonNode)
| JsonObject (members : list (string * JsonNode)).

Definition JsonObjectT := list (string * JsonNode).
Definition JsonArrayT := list JsonNode.

(** The C conversion [(gint64) d].  It truncates towards zero; where the
    value does not fit the conversion is undefined in C, and the model takes
    what x86-64 produces there, [INT64_MIN]. *)
Definition double_to_gint64 (d : spec_float) : Z :=
  match d with
  | S754_zero _ => 0
  | S754_finite s m e =>
      let mag := if 0 <=? e then Z.pos m * 2 ^ e else Z.pos m / 2 ^ (- e) in
      let v := if s then - mag else mag in
      if (- 2 ^ 63 <=? v) && (v <? 2 ^ 63) then v else - 2 ^ 63
  | S754_infinity _ | S754_nan => - 2 ^ 63
  end.

(** [json_node_get_object]: [NULL] for [NULL] and for a node that is not an
    object. *)
Definition json_node_get_object (node : option JsonNode) : option JsonObjectT :=
  match node with
  | Some (JsonObject members) => Some members
  | _ => None
  end.

Fixpoint lookup_member (members : JsonObjectT) (member_name : string) : option JsonNode :=
  match members with
  | [] => None
  | (k, v) :: members =>
      if String.eqb k member_name then Some v else lookup_member members member_name
  end.

(** [json_object_get_member]: [NULL] for a [NULL] object and for a name the
    object does not have. *)
Definition json_object_get_member (object : option JsonObjectT) (member_name : string)
  : option JsonNode :=
  match object with
  | Some members => lookup_member members member_name
  | None => None
  end.

(** [json_node_get_int]: the integer held; the integer component of a
    double; a boolean as 0 or 1; 0 for everything else. *)
Definition json_node_get_int (node : JsonNode) : Z :=
  match node with
  | JsonInt i => i
  | JsonDouble d => double_to_gint64 d
  | JsonBoolean b => if b then 1 else 0
  | _ => 0
  end.

(** [json_node_get_string]: [NULL] unless the node holds a string. *)
Definition json_node_get_string (node : JsonNode) : option string :=
  match node with
  | JsonString s => Some s
  | _ => None
  end.

(** [json_object_get_array_member]: [NULL] when the member is missing, is
    null or is not an array. *)
Definition json_object_get_array_member (object : option JsonObjectT) (member_name : string)
  : option JsonArrayT :=
  match json_object_get_member object member_name with
  | Some (JsonArray elements) => Some elements
  | _ => None
  end.

(** [json_array_foreach_element (array, func, data)]: [func] is called on
    every element in index order; [data] is the state it updates and [E] the
    effects it leaves behind.  [index_] is the index of the first element of
    [array]. *)
Fixpoint foreach_from {E D : Type} (index_ : nat) (array : JsonArrayT)
    (func : nat → JsonNode → D → list E * D) (data : D) : list E * D :=
  match array with
  | [] => ([], data)
  | element_node :: array =>
      let '(e1, data) := func index_ element_node data in
      let '(e2, data) := foreach_from (S index_) array func data in
      (e1 ++ e2, data)
  end.

Definition json_array_foreach_element {E D : Type} (array : JsonArrayT)
    (func : nat → JsonNode → D → list E * D) (data : D) : list E * D :=
  foreach_from 0 array func data.

End Json.

Export Inet Json.

(** ** nss-tls.h *)

(** Modelled from the spec: the header nss-tls.h is not among the sources.
    [struct nss_tls_req] is a request, a name and an address family; the
    fields are those [on_req] and [on_answer] read. *)
Record nss_tls_req := Req {
  af : Z;
  name : string
}.

(** Modelled from the spec: the header nss-tls.h is not among the sources.
    [struct nss_tls_res] is a response, one address buffer; [inet_pton]
    stores into it and [on_res] writes it out. *)
Record nss_tls_res := Res {
  addr : list octet
}.

(** Modelled from the spec: the header nss-tls.h is not among the sources.
    The response is a fixed-size binary buffer sized to hold the larger of
    an IPv4 or IPv6 address. *)
Definition sizeof_res : nat := NS_IN6ADDRSZ.

(** What else the daemon takes from the header: the resolver's host name,
    the socket timeout, and the layout of [struct nss_tls_req], given by its
    size and by how a buffer of that size reads as the structure. *)
Record nss_tls_h := Header {
  NSS_TLS_RESOLVER : string;
  NSS_TLS_TIMEOUT : Z;
  sizeof_req : nat;
  req_of_bytes : list octet → nss_tls_req
}.

(** ** The query structure and the effects of a session *)

Definition GSocketConnection := nat.

Record nss_tls_query := Query {
  req : nss_tls_req;
  res : nss_tls_res;
  type : Z;
  connection : GSocketConnection;
  ok : bool
}.

Definition set_req (r : nss_tls_req) (q : nss_tls_query) : nss_tls_query :=
  Query r (res q) (type q) (connection q) (ok q).
Definition set_addr (a : list octet) (q : nss_tls_query) : nss_tls_query :=
  Query (req q) (Res a) (type q) (connection q) (ok q).
Definition set_type (t : Z) (q : nss_tls_query) : nss_tls_query :=
  Query (req q) (res q) t (connection q) (ok q).
Definition set_ok (b : bool) (q : nss_tls_query) : nss_tls_query :=
  Query (req q) (res q) (type q) (connection q) b.

Inductive GLogLevel := G_LOG_LEVEL_WARNING | G_LOG_LEVEL_DEBUG.

(** What a callback does to the world outside the query structure. *)
Inductive effect :=
| g_log (level : GLogLevel) (message : string)
| g_socket_set_timeout (c : GSocketConnection) (timeout : Z)
| g_object_ref (c : GSocketConnection)
| g_object_unref (c : GSocketConnection)
| g_free_query
| g_input_stream_read_all_async (c : GSocketConnection) (count : nat)
| soup_session_send_async (method url : string)
| g_output_stream_write_all_async (c : GSocketConnection) (buffer : list octet).

Definition g_warning := g_log G_LOG_LEVEL_WARNING.
Definition g_debug := g_log G_LOG_LEVEL_DEBUG.

(** The asynchronous operation a session is waiting for; each is completed
    by one callback.  [Closed] is a session whose query has been freed. *)
Inductive session :=
| AwaitingRequest (query : nss_tls_query) (count : nat)
| Resolving (query : nss_tls_query)
| AwaitingWriteback (query : nss_tls_query)
| Closed.

(** ** Completions delivered by the main loop *)

(** [g_input_stream_read_all_finish]: the result, [len], the message of the
    [GError] if one was set, and the bytes now in the buffer. *)
Record read_all_result := ReadAll {
  read_ok : bool;
  read_len : nat;
  read_err : option string;
  read_buffer : list octet
}.

(** [json_parser_load_from_stream] on the response body. *)
Inductive json_load_result :=
| json_load_error (err : option string)
| json_loaded (root : option JsonNode).

(** [soup_session_send_finish].  A stream is returned whenever an HTTP
    response was received, whatever its status code; [NULL] means that no
    response came. *)
Inductive soup_send_result :=
| soup_send_error (err : option string)
| soup_send_stream (status_code : Z) (body : json_load_result).

(** Everything outside the daemon that one session meets: the bytes the peer
    sends on the connection before it stops sending, whether the read then
    ends in an error (reset, or the idle timeout set at accept time; with or
    without a [GError]), what comes back from the resolver, and whether the
    response can be written. *)
Record world := World {
  incoming : list octet;
  read_failure : option (option string);
  resolver : soup_send_result;
  write_ok : bool
}.

(** [g_input_stream_read_all (in, buffer, count)]: at most [count] bytes are
    taken from the stream and stored at the start of [buffer]; reaching the
    end of the stream early is a success with a smaller [len]. *)
Definition g_input_stream_read_all (count : nat) (buffer : list octet) (w : world)
  : read_all_result :=
  let got := take count (incoming w) in
  ReadAll (bool_decide (read_failure w = None))
          (length got)
          (mjoin (read_failure w))
          (memcpy buffer got (length got)).

(** ** The callbacks of nss-tlsd.c *)

(** The effects [es], then the computation [k]. *)
Definition after {A : Type} (es : list effect) (k : list effect * A) : list effect * A :=
  (es ++ k.1, k.2).

Notation "es '+>' k" := (after es k) (at level 65, right associativity).

(** [printf]'s [%u]. *)
Definition fmt_u (n : nat) : string := pretty n.

(** [printf]'s ["... : %s"] tail for an optional [GError]. *)
Definition with_err (msg : string) (err : option string) : string :=
  match err with
  | Some message => msg +:+ ": " +:+ message
  | None => msg
  end.

Definition on_done (query : nss_tls_query) (finished : bool) : list effect * session :=
  [ g_debug ((if finished then "Done querying " else "Failed to query ")
               +:+ name (req query)) ] +>
  [ g_object_unref (connection query); g_free_query ] +>
  ([], Closed).

Definition on_answer (index_ : nat) (element_node : JsonNode) (query : nss_tls_query)
  : list effect * nss_tls_query :=
  let answero := json_node_get_object (Some element_node) in
  match json_object_get_member answero "type" with
  | None => ([ g_warning ("No type member for " +:+ name (req query)) ], query)
  | Some type_ =>
      let i := json_node_get_int type_ in
      if negb (i =? type query) then ([], query)
      else
        match json_object_get_member answero "data" with
        | None =>
            ([ g_debug ("No data for answer " +:+ fmt_u index_ +:+ " of "
                          +:+ name (req query)) ], query)
        | Some data =>
            match json_node_get_string data with
            | None =>
                ([ g_debug ("Invalid data for answer " +:+ fmt_u index_ +:+ " of "
                              +:+ name (req query)) ], query)
            | Some s =>
                let '(r, dst) := inet_pton (af (req query)) s (addr (res query)) in
                let query := set_addr dst query in
                if negb (r =? 0) then
                  ([ g_debug (name (req query) +:+ " = " +:+ s) ], set_ok true query)
                else ([], query)
            end
        end
  end.

(** The code of [on_res] from its label [fail] on. *)
Definition on_res_fail (query : nss_tls_query) : list effect * session :=
  if ok query then ([], AwaitingWriteback query)
  else [ g_object_unref (connection query); g_free_query ] +> ([], Closed).

Definition on_res (query : nss_tls_query) (r : soup_send_result) : list effect * session :=
  let query := set_ok false query in
  match r with
  | soup_send_error err =>
      [ g_warning (with_err ("Failed to query " +:+ name (req query)) err) ] +>
      on_res_fail query
  | soup_send_stream _ (json_load_error err) =>
      [ g_warning (with_err ("Failed to parse the result for " +:+ name (req query)) err) ] +>
      on_res_fail query
  | soup_send_stream _ (json_loaded root) =>
      let rooto := json_node_get_object root in
      match rooto with
      | None =>
          [ g_warning ("No root object for " +:+ name (req query)) ] +>
          on_res_fail query
      | Some _ =>
          match json_object_get_array_member rooto "Answer" with
          | None =>
              [ g_warning ("No Answer member for " +:+ name (req query)) ] +>
              on_res_fail query
          | Some answers =>
              let '(logs, query) := json_array_foreach_element answers on_answer query in
              logs +>
              (if ok query then
                 [ g_output_stream_write_all_async (connection query)
                     (take sizeof_res (addr (res query))) ]
               else []) +>
              on_res_fail query
          end
      end
  end.

Section Daemon.

Context (h : nss_tls_h).

(** The code of [on_req] from its label [fail] on. *)
Definition on_req_fail (query : nss_tls_query) : list effect * session :=
  [ g_object_unref (connection query); g_free_query ] +> ([], Closed).

(** The code of [on_req] behind its [switch]. *)
Definition on_req_send (query : nss_tls_query) (url : string) : list effect * session :=
  [ g_debug ("Fetching " +:+ url); soup_session_send_async "GET" url ] +>
  ([], Resolving query).

Definition on_req (query : nss_tls_query) (r : read_all_result) : list effect * session :=
  if negb (read_ok r) then
    [ g_warning (with_err "Failed to receive a request" (read_err r)) ] +>
    on_req_fail query
  else if negb (read_len r =? sizeof_req h)%nat then
    [ g_debug "Bad request" ] +> on_req_fail query
  else
    [ g_debug ("Querying " +:+ name (req query)) ] +>
    if af (req query) =? AF_INET then
      on_req_send (set_type 1 query)
        ("https://" +:+ NSS_TLS_RESOLVER h
           +:+ "/dns-query?ct=application/dns-json&name=" +:+ name (req query)
           +:+ "&type=A")
    else if af (req query) =? AF_INET6 then
      on_req_send (set_type 28 query)
        ("https://" +:+ NSS_TLS_RESOLVER h
           +:+ "/dns-query?ct=application/dns-json&name=" +:+ name (req query)
           +:+ "&type=AAAA")
    else on_req_fail query.

(** [g_new0 (struct nss_tls_query, 1)]: every byte of the structure is
    zero. *)
Definition g_new0_query : nss_tls_query :=
  Query (req_of_bytes h (replicate (sizeof_req h) 0))
        (Res (replicate sizeof_res 0)) 0 0%nat false.

Definition set_connection (c : GSocketConnection) (q : nss_tls_query) : nss_tls_query :=
  Query (req q) (res q) (type q) c (ok q).

Definition on_incoming (connection : GSocketConnection) : list effect * session :=
  [ g_socket_set_timeout connection (NSS_TLS_TIMEOUT h) ] +>
  let query := g_new0_query in
  [ g_object_ref connection ] +>
  let query := set_connection connection query in
  [ g_input_stream_read_all_async connection (sizeof_req h) ] +>
  ([], AwaitingRequest query (sizeof_req h)).

(** ** The main loop *)

(** The completion of the session's pending operation is delivered to its
    callback.  The read stores into [&query->req], which [g_new0] zeroed. *)
Definition deliver (w : world) (s : session) : list effect * session :=
  match s with
  | AwaitingRequest query count =>
      let r := g_input_stream_read_all count (replicate (sizeof_req h) 0) w in
      on_req (set_req (req_of_bytes h (read_buffer r)) query) r
  | Resolving query => on_res query (resolver w)
  | AwaitingWriteback query => on_done query (write_ok w)
  | Closed => ([], Closed)
  end.

Fixpoint deliveries (n : nat) (w : world) (s : session) : list effect * session :=
  match n with
  | O => ([], s)
  | S n => let '(es, s) := deliver w s in es +> deliveries n w s
  end.

(** One session from accept to the end: [on_incoming] and then the three
    completions a session can wait for. *)
Definition run_session (w : world) (connection : GSocketConnection) : list effect * session :=
  let '(es, s) := on_incoming connection in es +> deliveries 3 w s.

Definition session_trace (w : world) (connection : GSocketConnection) : list effect :=
  (run_session w connection).1.

End Daemon.

(** ** A header to run the daemon with *)

Module Sample.

(** Modelled from the spec: the header nss-tls.h is not among the sources.
    The request is a fixed N-byte structure [{name[max_len], family:int}];
    here the name field has 256 bytes and the family is a 32-bit
    little-endian [int], so N is 260. *)
Definition name_len : nat := 256.

Definition int_of_le32 (b : list octet) : Z :=
  let u := foldr (λ x acc, x + 256 * acc) 0 (take 4 b) in
  if u <? 2 ^ 31 then u else u - 2 ^ 32.

Definition le32_of_int (i : Z) : list octet :=
  let u := i mod 2 ^ 32 in
  [u mod 256; (u / 256) mod 256; (u / 65536) mod 256; (u / 16777216) mod 256].

(** The C string at the start of a buffer. *)
Fixpoint cstring (b : list octet) : string :=
  match b with
  | [] => ""
  | c :: b => if c =? 0 then "" else String (ascii_of_N (Z.to_N c)) (cstring b)
  end.

Definition bytes_of_string (s : string) : list octet :=
  code <$> list_ascii_of_string s.

Definition req_of_bytes (b : list octet) : nss_tls_req :=
  Req (int_of_le32 (drop name_len b)) (cstring (take name_len b)).

(** The frame a client sends for a request. *)
Definition frame (r : nss_tls_req) : list octet :=
  take name_len (bytes_of_string (name r) ++ replicate name_len 0) ++ le32_of_int (af r).

Definition header : nss_tls_h :=
  Header "dns.example" 5 (name_len + 4) req_of_bytes.

(** A resolver response [{"Answer": [...]}] with status 200. *)
Definition answers (l : list JsonNode) : soup_send_result :=
  soup_send_stream 200 (json_loaded (Some (JsonObject [("Answer", JsonArray l)]))).

(** An answer record [{"type": t, "data": d}]. *)
Definition record (t : Z) (d : string) : JsonNode :=
  JsonObject [("type", JsonInt t); ("data", JsonString d)].

(** The query of a session on connection 7 that asks for the IPv4 address
    of example.com, as [on_res] receives it. *)
Definition query_A : nss_tls_query :=
  Query (Req AF_INET "example.com") (Res (replicate sizeof_res 0)) 1 7%nat false.

(** The same for the IPv6 address. *)
Definition query_AAAA : nss_tls_query :=
  Query (Req AF_INET6 "example.com") (Res (replicate sizeof_res 0)) 28 7%nat false.

End Sample.

(** * Notions the properties are stated with *)

(** ** The selection of an answer *)

(** The families [on_req] lets through. *)
Definition supported (af : Z) : Prop := af = AF_INET ∨ af = AF_INET6.

(** What a record says its type is, and the text it carries as data. *)
Definition record_type (e : JsonNode) : option Z :=
  json_node_get_int <$> json_object_get_member (json_node_get_object (Some e)) "type".

Definition record_data (e : JsonNode) : option string :=
  json_object_get_member (json_node_get_object (Some e)) "data" ≫= json_node_get_string.

(** The size of an address of a family, and the address a text denotes. *)
Definition address_size (af : Z) : nat :=
  if af =? AF_INET then NS_INADDRSZ else NS_IN6ADDRSZ.

Definition parse_address (af : Z) (s : string) : option (list octet) :=
  if af =? AF_INET then inet_pton4 (list_ascii_of_string s)
  else if af =? AF_INET6 then inet_pton6 (list_ascii_of_string s)
  else None.

(** A record is a match when its type is the wanted one, and a valid match
    when moreover its data is the text of an address of the family. *)
Definition valid_address (af wantType : Z) (e : JsonNode) : option (list octet) :=
  t ← record_type e;
  if t =? wantType then s ← record_data e; parse_address af s else None.

(** The selector as the specification words it: the address of the last
    valid match in array order, or nothing. *)
Definition select (af : Z) (answers : list JsonNode) (wantType : Z) : option (list octet) :=
  last (omap (valid_address af wantType) answers).

(** The selector as the code has it: the query after the array was visited. *)
Definition scan (answers : list JsonNode) (query : nss_tls_query) : nss_tls_query :=
  (json_array_foreach_element answers on_answer query).2.

(** The query once address [a] was stored and the flag raised. *)
Definition selected (a : list octet) (query : nss_tls_query) : nss_tls_query :=
  set_ok true (set_addr (a ++ drop (length a) (addr (res query))) query).

(** A record [on_answer] cannot use: it has no "type" member; or it is of
    the wanted type and has no "data" member, or one that is not a string. *)
Definition malformed (wantType : Z) (e : JsonNode) : Prop :=
  let answero := json_node_get_object (Some e) in
  json_object_get_member answero "type" = None ∨
  (record_type e = Some wantType ∧
   (json_object_get_member answero "data" = None ∨
    ∃ data, json_object_get_member answero "data" = Some data ∧
            json_node_get_string data = None)).

(** ** What a trace shows *)

Definition is_log (e : effect) : Prop :=
  match e with g_log _ _ => True | _ => False end.

(** The releases: of a connection reference, of the query. *)
Definition is_release (e : effect) : Prop :=
  match e with g_object_unref _ | g_free_query => True | _ => False end.

(** The buffers written to the connection, in order. *)
Definition written (es : list effect) : list (list octet) :=
  omap (λ e, match e with
             | g_output_stream_write_all_async _ buffer => Some buffer
             | _ => None
             end) es.

(** The HTTPS requests issued, as method and URL, in order. *)
Definition requested (es : list effect) : list (string * string) :=
  omap (λ e, match e with
             | soup_session_send_async method url => Some (method, url)
             | _ => None
             end) es.

(** ** The components of the specification, read off the code's interfaces *)

(** The DNS type code and mnemonic of a family. *)
Definition type_of_family (af : Z) : option (Z * string) :=
  if af =? AF_INET then Some (1, "A")
  else if af =? AF_INET6 then Some (28, "AAAA")
  else None.

(** The query builder: URL and expected type code of a request. *)
Definition buildQuery (h : nss_tls_h) (r : nss_tls_req) : option (string * Z) :=
  '(code, mnemonic) ← type_of_family (af r);
  Some ("https://" +:+ NSS_TLS_RESOLVER h
          +:+ "/dns-query?ct=application/dns-json&name=" +:+ name r
          +:+ "&type=" +:+ mnemonic, code).

(** The array [on_res] hands to the selector, when it gets that far. *)
Definition answer_array (r : soup_send_result) : option (list JsonNode) :=
  match r with
  | soup_send_stream _ (json_loaded root) =>
      json_object_get_array_member (json_node_get_object root) "Answer"
  | _ => None
  end.

(** The query after a resolution that found an address. *)
Definition resolution (query : nss_tls_query) (r : soup_send_result) : option nss_tls_query :=
  answers ← answer_array r;
  let query := scan answers (set_ok false query) in
  if ok query then Some query else None.

Section Notions.

Context (h : nss_tls_h).

(** The query and the read result [on_req] is called with. *)
Definition arrival (w : world) (c : GSocketConnection) : nss_tls_query * read_all_result :=
  let r := g_input_stream_read_all (sizeof_req h) (replicate (sizeof_req h) 0) w in
  (set_req (req_of_bytes h (read_buffer r)) (set_connection c (g_new0_query h)), r).

(** The request as the daemon sees it once the read has completed. *)
Definition received (w : world) : nss_tls_req :=
  req (arrival w 0%nat).1.

(** A frame passes when the read succeeded and filled the whole structure. *)
Definition frame_ok (r : read_all_result) : bool :=
  read_ok r && (read_len r =? sizeof_req h)%nat.

(** The query that goes on to the resolver, and its URL. *)
Definition accept (query : nss_tls_query) (r : read_all_result) : option (nss_tls_query * string) :=
  if frame_ok r then
    '(url, code) ← buildQuery h (req query); Some (set_type code query, url)
  else None.

Definition accepted (w : world) (c : GSocketConnection) : option (nss_tls_query * string) :=
  accept (arrival w c).1 (arrival w c).2.

(** The session of a world whose peer stops after the first [sizeof_req]
    bytes. *)
Definition truncated (w : world) : world :=
  World (take (sizeof_req h) (incoming w)) (read_failure w) (resolver w) (write_ok w).

(** Once the request was read, the bytes on the connection play no part. *)
Definition past_request (s : session) : Prop :=
  match s with AwaitingRequest _ _ => False | _ => True end.

End Notions.

(** ** The response of a session *)

(** A trace without its log lines. *)
Definition observable (es : list effect) : list effect :=
  omap (λ e, match e with g_log _ _ => None | _ => Some e end) es.

(** The bytes a session answers with, if it answers: the address selected
    from the resolver's answer array, followed by zeros up to the size of
    the response. *)
Definition response (h : nss_tls_h) (w : world) (c : GSocketConnection) : option (list octet) :=
  '(q1, _) ← accepted h w c;
  answers ← answer_array (resolver w);
  a ← select (af (req q1)) answers (type q1);
  Some (a ++ replicate (sizeof_res - length a) 0).

(** ** The process: [main], [on_term] and the main loop *)

(** The two signals [main] installs a handler for. *)
Inductive unix_signal := SIGINT | SIGTERM.

Definition EXIT_SUCCESS : Z := 0.

(** What the process does: the calls of [main] and of [on_term], and the
    effects of the sessions, each under the connection of its session. *)
Inductive process_effect :=
| g_unlink (path : string)
| g_unix_socket_address_new (path : string)
| g_socket_service_new
| g_main_loop_new
| g_socket_listener_add_address
| g_signal_connect (detailed_signal : string)
| g_socket_service_start
| g_chmod (path : string) (mode : Z)
| g_unix_signal_add (signum : unix_signal)
| g_main_loop_quit
| g_main_loop_unref
| g_object_unref_service
| g_object_unref_address
| in_session (c : GSocketConnection) (e : effect).

(** What the main loop dispatches: the "incoming" signal of the socket
    service for a new connection, the completion of the operation the
    session of a connection waits for, and a unix signal. *)
Inductive event :=
| ev_incoming (c : GSocketConnection)
| ev_completion (c : GSocketConnection)
| ev_signal (signum : unix_signal).

(** The main loop: the sessions that wait for a completion, by connection;
    the signals whose source is still attached; and whether
    [g_main_loop_quit] has not been called. *)
Record main_loop := MainLoop {
  pending : gmap GSocketConnection session;
  watched : list unix_signal;
  is_running : bool
}.

(** [on_term]: the loop is told to quit; the returned [FALSE] detaches the
    source. *)
Definition on_term : list process_effect * bool := ([ g_main_loop_quit ], false).

Definition signal_eqb (a b : unix_signal) : bool :=
  match a, b with
  | SIGINT, SIGINT | SIGTERM, SIGTERM => true
  | _, _ => false
  end.

(** A session that goes on waits under its connection; a closed one is
    gone. *)
Definition store (c : GSocketConnection) (s : session) (m : gmap GSocketConnection session)
  : gmap GSocketConnection session :=
  match s with
  | Closed => delete c m
  | _ => <[c := s]> m
  end.

Section Process.

Context (h : nss_tls_h) (NSS_TLS_SOCKET : string) (worlds : GSocketConnection → world).

(** One dispatch.  A completion is dispatched to the callback of the
    session that waits under the connection, a signal to [on_term] while
    its source is attached; there is nothing else to dispatch to. *)
Definition dispatch (ev : event) (loop : main_loop) : list process_effect * main_loop :=
  match ev with
  | ev_incoming c =>
      let '(es, s) := on_incoming h c in
      (in_session c <$> es,
       MainLoop (store c s (pending loop)) (watched loop) (is_running loop))
  | ev_completion c =>
      match pending loop !! c with
      | Some s =>
          let '(es, s) := deliver h (worlds c) s in
          (in_session c <$> es,
           MainLoop (store c s (pending loop)) (watched loop) (is_running loop))
      | None => ([], loop)
      end
  | ev_signal signum =>
      if existsb (signal_eqb signum) (watched loop) then
        let '(es, keep) := on_term in
        (es,
         MainLoop (pending loop)
                  (if keep then watched loop
                   else List.filter (λ s, negb (signal_eqb signum s)) (watched loop))
                  false)
      else ([], loop)
  end.

(** One iteration of the loop: every source that is ready is dispatched,
    also those behind a call of [g_main_loop_quit]. *)
Fixpoint iterate (events : list event) (loop : main_loop) : list process_effect * main_loop :=
  match events with
  | [] => ([], loop)
  | ev :: events =>
      let '(es1, loop) := dispatch ev loop in
      let '(es2, loop) := iterate events loop in
      (es1 ++ es2, loop)
  end.

(** [g_main_loop_run]: iterations follow one another until one of them has
    called [g_main_loop_quit]. *)
Fixpoint g_main_loop_run (iterations : list (list event)) (loop : main_loop)
  : list process_effect * main_loop :=
  match iterations with
  | [] => ([], loop)
  | events :: iterations =>
      let '(es1, loop) := iterate events loop in
      if is_running loop then
        let '(es2, loop) := g_main_loop_run iterations loop in (es1 ++ es2, loop)
      else (es1, loop)
  end.

(** The loop as [main] starts it. *)
Definition g_main_loop_new_state : main_loop := MainLoop ∅ [SIGINT; SIGTERM] true.

(** [main].  The result is [None] while the loop still runs when the
    iterations given are used up. *)
Definition main (iterations : list (list event)) : list process_effect * option Z :=
  let before :=
    [ g_unlink NSS_TLS_SOCKET;
      g_unix_socket_address_new NSS_TLS_SOCKET;
      g_socket_service_new;
      g_main_loop_new;
      g_socket_listener_add_address;
      g_signal_connect "incoming";
      g_socket_service_start;
      g_chmod NSS_TLS_SOCKET 438;
      g_unix_signal_add SIGINT;
      g_unix_signal_add SIGTERM ] in
  let '(es, loop) := g_main_loop_run iterations g_main_loop_new_state in
  if is_running loop then (before ++ es, None)
  else
    (before ++ es ++
       [ g_main_loop_unref; g_object_unref_service; g_unlink NSS_TLS_SOCKET;
         g_object_unref_address ],
     Some EXIT_SUCCESS).

(** The loop when [main] leaves it, or when the iterations are used up. *)
Definition main_loop_end (iterations : list (list event)) : main_loop :=
  (g_main_loop_run iterations g_main_loop_new_state).2.

End Process.

(** The effects of the session of connection [c] in a trace of the
    process. *)
Definition project (c : GSocketConnection) (es : list process_effect) : list effect :=
  omap (λ e, match e with
             | in_session c' e => if decide (c' = c) then Some e else None
             | _ => None
             end) es.


(** The connections accepted in a run. *)
Definition connections (events : list event) : list GSocketConnection :=
  omap (λ ev, match ev with ev_incoming c => Some c | _ => None end) events.


(** What the main loop keeps of a session: a closed one is gone. *)
Definition waiting (s : session) : option session :=
  match s with Closed => None | _ => Some s end.





Section Local.

Context (h : nss_tls_h) (worlds : GSocketConnection → world) (c : GSocketConnection).

(** The session of connection [c] alone: what one dispatch, and what a
    sequence of dispatches, does to it and makes it do. *)
Definition local_step (ev : event) (o : option session) : list effect * option session :=
  match ev with
  | ev_incoming c' =>
      if decide (c' = c) then let '(es, s) := on_incoming h c in (es, waiting s)
      else ([], o)
  | ev_completion c' =>
      if decide (c' = c) then
        match o with
        | Some s => let '(es, s) := deliver h (worlds c) s in (es, waiting s)
        | None => ([], None)
        end
      else ([], o)
  | ev_signal _ => ([], o)
  end.

Fixpoint local (events : list event) (o : option session) : list effect * option session :=
  match events with
  | [] => ([], o)
  | ev :: events =>
      let '(es1, o) := local_step ev o in
      let '(es2, o) := local events o in
      (es1 ++ es2, o)
  end.

End Local.

(** ** A run of the process *)

Module SampleRun.

(** What the sessions meet: the one on connection 1 asks for the IPv4
    address of a.example and gets it, every other one asks for the IPv6
    address of b.example and gets an empty answer. *)
Definition worlds (c : GSocketConnection) : world :=
  if decide (c = 1%nat) then
    World (Sample.frame (Req AF_INET "a.example")) None
          (Sample.answers [Sample.record 1 "1.2.3.4"]) true
  else
    World (Sample.frame (Req AF_INET6 "b.example")) None (Sample.answers []) true.

(** Two sessions interleaved, SIGTERM in the fourth iteration, and a
    connection that comes too late. *)
Definition iterations : list (list event) :=
  [ [ev_incoming 1%nat];
    [ev_incoming 2%nat; ev_completion 1%nat];
    [ev_completion 2%nat];
    [ev_completion 1%nat; ev_completion 2%nat; ev_signal SIGTERM; ev_completion 1%nat];
    [ev_incoming 3%nat] ].

(** The same, stopped by SIGINT one iteration earlier. *)
Definition cut_short : list (list event) :=
  [ [ev_incoming 1%nat];
    [ev_incoming 2%nat; ev_completion 1%nat];
    [ev_completion 2%nat; ev_signal SIGINT] ].

Definition socket : string := "/var/run/nss-tls.sock".

End SampleRun.

(** * Properties *)

(** ** [inet_pton]: the size of what is copied out *)

Lemma inet_pton4_loop_length src st a :
  length (tmp4 st) = NS_INADDRSZ →
  inet_pton4_loop src st = Some a →
  length a = NS_INADDRSZ.
Proof.
  revert st. induction src as [|ch src IH]; intros st Hlen; simpl.
  - case_match; [done|]. by intros [= <-].
  - repeat case_match; try done; apply IH; simpl; by rewrite ?length_insert.
Qed.

Lemma inet_pton4_length src a :
  inet_pton4 src = Some a → length a = NS_INADDRSZ.
Proof. apply inet_pton4_loop_length. done. Qed.

Lemma put16_length tmp tp v : length (put16 tmp tp v) = length tmp.
Proof. unfold put16. by rewrite !length_insert. Qed.

Ltac reflect_nat :=
  repeat match goal with
         | H : (_ <? _)%nat = true |- _ => apply Nat.ltb_lt in H
         | H : (_ <? _)%nat = false |- _ => apply Nat.ltb_ge in H
         | H : (_ =? _)%nat = true |- _ => apply Nat.eqb_eq in H
         | H : (_ =? _)%nat = false |- _ => apply Nat.eqb_neq in H
         | H : (_ <=? _)%nat = true |- _ => apply Nat.leb_le in H
         | H : _ && _ = true |- _ => apply andb_prop in H as [? ?]
         end.

Lemma inet_pton6_finish_length st a :
  pton6_inv st → inet_pton6_finish st = Some a → length a = NS_IN6ADDRSZ.
Proof.
  intros (Hlen & Htp & Hcp). unfold inet_pton6_finish, NS_IN6ADDRSZ, NS_INT16SZ in *.
  destruct (colonp st) as [cp|] eqn:Hc; [specialize (Hcp cp eq_refl)|];
    repeat case_match; simplify_eq; try done;
    intros [= <-];
    rewrite ?length_app, ?length_take, ?length_drop, ?length_replicate, ?put16_length;
    reflect_nat; lia.
Qed.

Lemma inet_pton6_loop_length src st a :
  pton6_inv st → inet_pton6_loop src st = Some a → length a = NS_IN6ADDRSZ.
Proof.
  revert st. induction src as [|ch src IH]; intros st Hinv; simpl.
  - by apply inet_pton6_finish_length.
  - destruct Hinv as (Hlen & Htp & Hcp).
    unfold NS_IN6ADDRSZ, NS_INT16SZ, NS_INADDRSZ in *.
    repeat case_match; try done; reflect_nat;
      first [apply IH | apply inet_pton6_finish_length];
      (split; [|split]); simpl; rewrite ?put16_length; try done; try lia.
    + intros cp' [= <-]. lia.
    + intros cp' Hcp'. specialize (Hcp _ Hcp'). lia.
    + match goal with H : inet_pton4 _ = Some _ |- _ =>
        apply inet_pton4_length in H; unfold NS_INADDRSZ in H end.
      unfold NS_IN6ADDRSZ. rewrite !length_app, length_take, length_drop. lia.
    + intros cp' Hcp'. specialize (Hcp _ Hcp'). lia.
Qed.

Lemma inet_pton6_length src a :
  inet_pton6 src = Some a → length a = NS_IN6ADDRSZ.
Proof.
  unfold inet_pton6. intros H.
  repeat case_match; try done;
    (eapply inet_pton6_loop_length; [|exact H]; repeat split; simpl; try done; lia).
Qed.

(** ** The selection of an answer *)

Lemma set_addr_same query : set_addr (addr (res query)) query = query.
Proof. by destruct query as [? [?] ? ? ?]. Qed.

Lemma parse_address_length af s a :
  parse_address af s = Some a → length a = address_size af.
Proof.
  unfold parse_address, address_size.
  destruct (af =? AF_INET); [apply inet_pton4_length|].
  destruct (af =? AF_INET6); [apply inet_pton6_length|done].
Qed.

(** [inet_pton] on a supported family, read through [parse_address]. *)
Lemma inet_pton_supported af s dst :
  supported af →
  inet_pton af s dst =
    match parse_address af s with
    | Some a => (1, a ++ drop (length a) dst)
    | None => (0, dst)
    end.
Proof.
  intros Haf. unfold inet_pton, parse_address, memcpy.
  destruct Haf as [-> | ->]; simpl.
  - destruct (inet_pton4 _) as [a|] eqn:Ha; [|done].
    apply inet_pton4_length in Ha. by rewrite Ha, take_ge by lia.
  - destruct (inet_pton6 _) as [a|] eqn:Ha; [|done].
    apply inet_pton6_length in Ha. by rewrite Ha, take_ge by lia.
Qed.

(** One visit of [on_answer]: a valid match is stored, any other record
    leaves the query as it was. *)
Lemma on_answer_query index_ e query :
  supported (af (req query)) →
  (on_answer index_ e query).2 =
    from_option (λ a, selected a query) query
      (valid_address (af (req query)) (type query) e).
Proof.
  intros Haf. unfold on_answer, valid_address, record_type, record_data.
  destruct (json_object_get_member _ "type") as [type_|]; simpl; [|done].
  destruct (json_node_get_int type_ =? type query); simpl; [|done].
  destruct (json_object_get_member _ "data") as [data|]; simpl; [|done].
  destruct (json_node_get_string data) as [s|]; simpl; [|done].
  rewrite (inet_pton_supported _ _ _ Haf).
  destruct (parse_address _ s) as [a|]; simpl; [done|].
  apply set_addr_same.
Qed.

Lemma on_answer_logs index_ e query : Forall is_log (on_answer index_ e query).1.
Proof.
  unfold on_answer. repeat case_match; simpl; repeat constructor.
Qed.

Lemma foreach_on_answer_logs index_ answers query :
  Forall is_log (foreach_from index_ answers on_answer query).1.
Proof.
  revert index_ query. induction answers as [|e answers IH]; intros index_ query; simpl.
  - constructor.
  - pose proof (on_answer_logs index_ e query) as H1.
    destruct (on_answer index_ e query) as [e1 q1].
    specialize (IH (S index_) q1).
    destruct (foreach_from _ answers on_answer q1) as [e2 q2]. simpl in *.
    by apply Forall_app.
Qed.

Lemma selected_selected a b query :
  length a = length b → selected b (selected a query) = selected b query.
Proof.
  intros Hab. unfold selected, set_ok, set_addr. simpl.
  rewrite drop_app_length' by lia. by rewrite Hab.
Qed.

Lemma selected_af a query : af (req (selected a query)) = af (req query).
Proof. done. Qed.

Lemma selected_type a query : type (selected a query) = type query.
Proof. done. Qed.

Lemma valid_address_length af wantType e a :
  valid_address af wantType e = Some a → length a = address_size af.
Proof.
  unfold valid_address. intros H.
  destruct (record_type e) as [t|]; simpl in H; [|done].
  destruct (t =? wantType); [|done].
  destruct (record_data e) as [s|]; simpl in H; [|done].
  by eapply parse_address_length.
Qed.

Lemma select_length af answers wantType a :
  select af answers wantType = Some a → length a = address_size af.
Proof.
  unfold select. intros H. apply last_Some_elem_of, list_elem_of_omap in H.
  destruct H as (e & _ & He). by eapply valid_address_length.
Qed.

Lemma select_cons af e answers wantType :
  select af (e :: answers) wantType =
    match valid_address af wantType e with
    | Some a => Some (default a (select af answers wantType))
    | None => select af answers wantType
    end.
Proof.
  unfold select. change (omap ?f (e :: answers)) with
    (match f e with Some y => y :: omap f answers | None => omap f answers end).
  destruct (valid_address af wantType e) as [a|]; [|done].
  rewrite last_cons. by destruct (last _).
Qed.

(** The code's scan computes the specification's [select]: the visit of the
    whole array leaves the query as storing the last valid match does, and
    untouched when there is none. *)
Lemma foreach_on_answer_select index_ answers query :
  supported (af (req query)) →
  (foreach_from index_ answers on_answer query).2 =
    from_option (λ a, selected a query) query
      (select (af (req query)) answers (type query)).
Proof.
  revert index_ query.
  induction answers as [|e answers IH]; intros index_ query Haf; [done|].
  rewrite select_cons. cbn [foreach_from].
  pose proof (on_answer_query index_ e query Haf) as He.
  destruct (on_answer index_ e query) as [e1 q1]. cbn [snd] in He.
  specialize (IH (S index_) q1).
  destruct (foreach_from (S index_) answers on_answer q1) as [e2 q2]. cbn [snd] in *.
  destruct (valid_address (af (req query)) (type query) e) as [a|] eqn:Hv;
    cbn [from_option] in *; subst q1; [|by apply IH].
  rewrite (IH Haf).
  change (af (req (selected a query))) with (af (req query)).
  change (type (selected a query)) with (type query).
  destruct (select _ answers _) as [b|] eqn:Hb; cbn [from_option default]; [|done].
  apply selected_selected.
  apply valid_address_length in Hv. apply select_length in Hb.
  exact (eq_trans Hv (eq_sym Hb)).
Qed.

Lemma scan_select answers query :
  supported (af (req query)) →
  scan answers query =
    from_option (λ a, selected a query) query
      (select (af (req query)) answers (type query)).
Proof. apply foreach_on_answer_select. Qed.

Lemma scan_logs answers query :
  Forall is_log (json_array_foreach_element answers on_answer query).1.
Proof. apply foreach_on_answer_logs. Qed.

(** ** The shape of a session *)

Section Shape.

Context (h : nss_tls_h).

Lemma on_req_shape query r :
  ∃ logs, Forall is_log logs ∧
    on_req h query r =
      match accept h query r with
      | Some (query', url) => (logs ++ [soup_session_send_async "GET" url], Resolving query')
      | None => (logs ++ [g_object_unref (connection query); g_free_query], Closed)
      end.
Proof.
  unfold on_req, accept, frame_ok, buildQuery, type_of_family.
  destruct (read_ok r); simpl.
  2: { eexists [_]. split; [|done]; repeat constructor. }
  destruct (read_len r =? sizeof_req h)%nat; simpl.
  2: { eexists [_]. split; [|done]; repeat constructor. }
  destruct (af (req query) =? AF_INET); simpl.
  { eexists [_; _]. split; [|done]; repeat constructor. }
  destruct (af (req query) =? AF_INET6); simpl.
  { eexists [_; _]. split; [|done]; repeat constructor. }
  eexists [_]. split; [|done]; repeat constructor.
Qed.

End Shape.

Lemma on_answer_connection index_ e query :
  connection (on_answer index_ e query).2 = connection query.
Proof. unfold on_answer. by repeat case_match. Qed.

Lemma foreach_on_answer_connection index_ answers query :
  connection (foreach_from index_ answers on_answer query).2 = connection query.
Proof.
  revert index_ query. induction answers as [|e answers IH]; intros index_ query; [done|].
  cbn [foreach_from].
  pose proof (on_answer_connection index_ e query) as He.
  destruct (on_answer index_ e query) as [e1 q1].
  specialize (IH (S index_) q1).
  destruct (foreach_from (S index_) answers on_answer q1) as [e2 q2].
  simpl in *. congruence.
Qed.

Lemma resolution_connection query r query' :
  resolution query r = Some query' → connection query' = connection query.
Proof.
  unfold resolution. destruct (answer_array r) as [answers|]; simpl; [|done].
  case_match; [|done]. intros [= <-].
  exact (foreach_on_answer_connection 0 answers (set_ok false query)).
Qed.

Lemma on_res_shape query r :
  ∃ logs, Forall is_log logs ∧
    on_res query r =
      match resolution query r with
      | Some query' =>
          (logs ++ [g_output_stream_write_all_async (connection query')
                      (take sizeof_res (addr (res query')))],
           AwaitingWriteback query')
      | None => (logs ++ [g_object_unref (connection query); g_free_query], Closed)
      end.
Proof.
  unfold on_res, resolution, answer_array, on_res_fail.
  destruct r as [err | status [err | root]]; simpl.
  1, 2: eexists [_]; split; [|done]; repeat constructor.
  destruct (json_node_get_object root) as [rooto|] eqn:Hroot; simpl.
  2: { eexists [_]. split; [|done]; repeat constructor. }
  destruct (json_object_get_array_member (Some rooto) "Answer") as [answers|]; simpl.
  2: { eexists [_]. split; [|done]; repeat constructor. }
  unfold scan.
  pose proof (scan_logs answers (set_ok false query)) as Hlogs.
  pose proof (foreach_on_answer_connection 0 answers (set_ok false query)) as Hc.
  unfold json_array_foreach_element in *.
  destruct (foreach_from 0 answers on_answer (set_ok false query)) as [logs q'].
  simpl in *. exists logs. split; [done|].
  destruct (ok q'); unfold after; simpl; [done|]. by rewrite Hc.
Qed.

Section Sessions.

Context (h : nss_tls_h).

Lemma accept_connection query r query' url :
  accept h query r = Some (query', url) → connection query' = connection query.
Proof.
  unfold accept. destruct (frame_ok h r); [|done].
  destruct (buildQuery h (req query)) as [[u t]|]; simpl; [|done].
  by intros [= <- _].
Qed.

(** Every session runs to its end, and its effects are, up to log lines:
    the three calls of [on_incoming]; for an accepted request the HTTPS
    request; for a resolution that found an address the write of the
    response; and, last, the release of the connection and of the query. *)
Lemma session_shape w c :
  ∃ l1 l2 l3, Forall is_log l1 ∧ Forall is_log l2 ∧ Forall is_log l3 ∧
    run_session h w c =
      ([ g_socket_set_timeout c (NSS_TLS_TIMEOUT h); g_object_ref c;
         g_input_stream_read_all_async c (sizeof_req h) ] ++ l1 ++
       match accepted h w c with
       | None => [ g_object_unref c; g_free_query ]
       | Some (q1, url) =>
           [ soup_session_send_async "GET" url ] ++ l2 ++
           match resolution q1 (resolver w) with
           | None => [ g_object_unref c; g_free_query ]
           | Some q2 =>
               [ g_output_stream_write_all_async c (take sizeof_res (addr (res q2))) ]
                 ++ l3 ++ [ g_object_unref c; g_free_query ]
           end
       end, Closed).
Proof.
  unfold run_session, on_incoming, accepted, arrival. simpl.
  set (r := g_input_stream_read_all _ _ w).
  set (q0 := set_req _ _).
  destruct (on_req_shape h q0 r) as (l1 & Hl1 & ->).
  destruct (accept h q0 r) as [[q1 url]|] eqn:Haccept; simpl.
  2: { exists l1, [], []. repeat split; try done.
       unfold after; simpl. by rewrite ?app_nil_r. }
  apply accept_connection in Haccept. simpl in Haccept.
  destruct (on_res_shape q1 (resolver w)) as (l2 & Hl2 & ->).
  destruct (resolution q1 (resolver w)) as [q2|] eqn:Hres; simpl.
  2: { exists l1, l2, []. repeat split; try done.
       unfold after; simpl. rewrite Haccept, ?app_nil_r. by rewrite <- ?app_assoc. }
  apply resolution_connection in Hres. rewrite Hres, Haccept.
  exists l1, l2, [g_debug ((if write_ok w then "Done querying " else "Failed to query ")
                             +:+ name (req q2))].
  repeat split; try done; [repeat constructor|].
  unfold after; simpl. rewrite ?app_nil_r. by rewrite <- ?app_assoc.
Qed.

End Sessions.

(** ** What a trace shows *)

Lemma omap_logs {B} (f : effect → option B) logs :
  (∀ level message, f (g_log level message) = None) →
  Forall is_log logs → omap f logs = [].
Proof.
  intros Hf. induction 1 as [|e logs He _ IH]; [done|].
  destruct e; try done. simpl. by rewrite Hf.
Qed.

Lemma written_logs logs : Forall is_log logs → written logs = [].
Proof. by apply omap_logs. Qed.

Lemma requested_logs logs : Forall is_log logs → requested logs = [].
Proof. by apply omap_logs. Qed.

Lemma logs_no_release logs : Forall is_log logs → Forall (λ e, ¬ is_release e) logs.
Proof. intros H. eapply Forall_impl; [exact H|]. by intros [] Hl Hr. Qed.

Section Observations.

Context (h : nss_tls_h).

Lemma session_closed w c : (run_session h w c).2 = Closed.
Proof. destruct (session_shape h w c) as (l1 & l2 & l3 & _ & _ & _ & ->). done. Qed.

(** Response bytes are written once, by a resolution that found an
    address, and never otherwise. *)
Lemma session_written w c :
  written (session_trace h w c) =
    match accepted h w c with
    | Some (q1, _) =>
        match resolution q1 (resolver w) with
        | Some q2 => [ take sizeof_res (addr (res q2)) ]
        | None => []
        end
    | None => []
    end.
Proof.
  unfold session_trace.
  destruct (session_shape h w c) as (l1 & l2 & l3 & Hl1 & Hl2 & Hl3 & ->).
  unfold written. cbn [fst]. rewrite !omap_app.
  fold (written l1). rewrite (written_logs l1) by done.
  destruct (accepted h w c) as [[q1 url]|]; [|done].
  rewrite !omap_app. fold (written l2). rewrite (written_logs l2) by done.
  destruct (resolution q1 (resolver w)) as [q2|]; [|done].
  rewrite !omap_app. fold (written l3). by rewrite (written_logs l3).
Qed.

(** One HTTPS request is issued for an accepted request, none otherwise. *)
Lemma session_requested w c :
  requested (session_trace h w c) =
    match accepted h w c with
    | Some (_, url) => [ ("GET", url) ]
    | None => []
    end.
Proof.
  unfold session_trace.
  destruct (session_shape h w c) as (l1 & l2 & l3 & Hl1 & Hl2 & Hl3 & ->).
  unfold requested. cbn [fst]. rewrite !omap_app.
  fold (requested l1). rewrite (requested_logs l1) by done.
  destruct (accepted h w c) as [[q1 url]|]; [|done].
  rewrite !omap_app. fold (requested l2). rewrite (requested_logs l2) by done.
  destruct (resolution q1 (resolver w)) as [q2|]; [|done].
  rewrite !omap_app. fold (requested l3). by rewrite (requested_logs l3).
Qed.

End Observations.

(** ** The visit of an array, piece by piece *)

Lemma foreach_from_app {E D} index_ (l1 l2 : list JsonNode)
    (func : nat → JsonNode → D → list E * D) data :
  foreach_from index_ (l1 ++ l2) func data =
    let '(e1, data) := foreach_from index_ l1 func data in
    let '(e2, data) := foreach_from (index_ + length l1) l2 func data in
    (e1 ++ e2, data).
Proof.
  revert index_ data. induction l1 as [|x l1 IH]; intros index_ data; simpl.
  - rewrite Nat.add_0_r. by destruct (foreach_from index_ l2 func data).
  - destruct (func index_ x data) as [e1 d1]. rewrite IH.
    destruct (foreach_from (S index_) l1 func d1) as [e2 d2].
    replace (index_ + S (length l1))%nat with (S index_ + length l1)%nat by lia.
    destruct (foreach_from _ l2 func d2) as [e3 d3]. by rewrite app_assoc.
Qed.

(** The index only shows in log lines. *)
Lemma on_answer_index i j e query : (on_answer i e query).2 = (on_answer j e query).2.
Proof.
  unfold on_answer.
  destruct (json_object_get_member _ "type") as [type_|]; [|done].
  destruct (negb _); [done|].
  destruct (json_object_get_member _ "data") as [data|]; [|done].
  destruct (json_node_get_string data) as [s|]; [|done].
  destruct (inet_pton _ _ _) as [r dst]. by destruct (negb _).
Qed.

Lemma foreach_on_answer_index i j answers query :
  (foreach_from i answers on_answer query).2 = (foreach_from j answers on_answer query).2.
Proof.
  revert i j query. induction answers as [|e answers IH]; intros i j query; [done|].
  cbn [foreach_from].
  pose proof (on_answer_index i j e query) as He.
  destruct (on_answer i e query) as [e1 q1], (on_answer j e query) as [e1' q1'].
  simpl in He. subst q1'. specialize (IH (S i) (S j) q1).
  destruct (foreach_from (S i) answers on_answer q1) as [e2 q2].
  by destruct (foreach_from (S j) answers on_answer q1) as [e2' q2'].
Qed.

Lemma scan_app l1 l2 query : scan (l1 ++ l2) query = scan l2 (scan l1 query).
Proof.
  unfold scan, json_array_foreach_element. rewrite foreach_from_app.
  destruct (foreach_from 0 l1 on_answer query) as [e1 q1]. simpl.
  rewrite <- (foreach_on_answer_index (length l1) 0).
  by destruct (foreach_from (length l1) l2 on_answer q1).
Qed.

Lemma scan_cons e answers query :
  scan (e :: answers) query = scan answers (on_answer 0 e query).2.
Proof.
  unfold scan, json_array_foreach_element. cbn [foreach_from].
  destruct (on_answer 0 e query) as [e1 q1]. simpl.
  rewrite <- (foreach_on_answer_index 1 0).
  by destruct (foreach_from 1 answers on_answer q1).
Qed.

(** [on_answer] writes the address and the flag, and nothing else. *)
Lemma on_answer_frame index_ e query :
  req (on_answer index_ e query).2 = req query ∧
  type (on_answer index_ e query).2 = type query.
Proof. unfold on_answer. by repeat case_match. Qed.

Lemma scan_frame answers query :
  req (scan answers query) = req query ∧ type (scan answers query) = type query.
Proof.
  revert query. induction answers as [|e answers IH]; intros query; [done|].
  rewrite scan_cons. destruct (IH (on_answer 0 e query).2) as [-> ->].
  apply on_answer_frame.
Qed.

Lemma parse_address_supported af s a : parse_address af s = Some a → supported af.
Proof.
  unfold parse_address, supported.
  destruct (af =? AF_INET) eqn:H4; [left; lia|].
  destruct (af =? AF_INET6) eqn:H6; [right; lia|done].
Qed.

Lemma valid_address_supported af wantType e a :
  valid_address af wantType e = Some a → supported af.
Proof.
  unfold valid_address.
  destruct (record_type e) as [t|]; simpl; [|done].
  destruct (t =? wantType); [|done].
  destruct (record_data e) as [s|]; simpl; [|done].
  apply parse_address_supported.
Qed.

Lemma select_app af l1 l2 wantType :
  select af (l1 ++ l2) wantType =
    match select af l2 wantType with
    | Some a => Some a
    | None => select af l1 wantType
    end.
Proof. unfold select. by rewrite omap_app, last_app. Qed.

Lemma select_None af answers wantType :
  select af answers wantType = None ↔
  Forall (λ e, valid_address af wantType e = None) answers.
Proof.
  unfold select. rewrite last_None. induction answers as [|e answers IH].
  - split; [constructor|done].
  - change (omap ?f (e :: answers)) with
      (match f e with Some y => y :: omap f answers | None => omap f answers end).
    rewrite Forall_cons. destruct (valid_address af wantType e); [|tauto].
    split; [done|]. by intros [? _].
Qed.

(** ** Some runs *)

(** A request for the IPv4 address of example.com, answered with one A
    record. *)
Example run_example_com :
  session_trace Sample.header
    (World (Sample.frame (Req AF_INET "example.com")) None
           (Sample.answers [Sample.record 1 "93.184.216.34"]) true) 7%nat
  = [ g_socket_set_timeout 7%nat 5;
      g_object_ref 7%nat;
      g_input_stream_read_all_async 7%nat 260;
      g_debug "Querying example.com";
      g_debug "Fetching https://dns.example/dns-query?ct=application/dns-json&name=example.com&type=A";
      soup_session_send_async "GET"
        "https://dns.example/dns-query?ct=application/dns-json&name=example.com&type=A";
      g_debug "example.com = 93.184.216.34";
      g_output_stream_write_all_async 7%nat
        [93; 184; 216; 34; 0; 0; 0; 0; 0; 0; 0; 0; 0; 0; 0; 0];
      g_debug "Done querying example.com";
      g_object_unref 7%nat;
      g_free_query ].
Proof. reflexivity. Qed.

(** A request for the IPv6 address of nope.invalid, answered with an empty
    array. *)
Example run_nope_invalid :
  session_trace Sample.header
    (World (Sample.frame (Req AF_INET6 "nope.invalid")) None (Sample.answers []) true) 7%nat
  = [ g_socket_set_timeout 7%nat 5;
      g_object_ref 7%nat;
      g_input_stream_read_all_async 7%nat 260;
      g_debug "Querying nope.invalid";
      g_debug "Fetching https://dns.example/dns-query?ct=application/dns-json&name=nope.invalid&type=AAAA";
      soup_session_send_async "GET"
        "https://dns.example/dns-query?ct=application/dns-json&name=nope.invalid&type=AAAA";
      g_object_unref 7%nat;
      g_free_query ].
Proof. reflexivity. Qed.

(** A read that times out after ten bytes. *)
Example run_read_failure :
  session_trace Sample.header
    (World (take 10 (Sample.frame (Req AF_INET "example.com")))
           (Some (Some "Socket I/O timed out"))
           (Sample.answers [Sample.record 1 "93.184.216.34"]) true) 7%nat
  = [ g_socket_set_timeout 7%nat 5;
      g_object_ref 7%nat;
      g_input_stream_read_all_async 7%nat 260;
      g_warning "Failed to receive a request: Socket I/O timed out";
      g_object_unref 7%nat;
      g_free_query ].
Proof. reflexivity. Qed.

(** A request for a family that is neither IPv4 nor IPv6. *)
Example run_unsupported_family :
  session_trace Sample.header
    (World (Sample.frame (Req 1 "example.com")) None
           (Sample.answers [Sample.record 1 "93.184.216.34"]) true) 7%nat
  = [ g_socket_set_timeout 7%nat 5;
      g_object_ref 7%nat;
      g_input_stream_read_all_async 7%nat 260;
      g_debug "Querying example.com";
      g_object_unref 7%nat;
      g_free_query ].
Proof. reflexivity. Qed.

(** A response that cannot be written back. *)
Example run_write_failure :
  session_trace Sample.header
    (World (Sample.frame (Req AF_INET "example.com")) None
           (Sample.answers [Sample.record 1 "93.184.216.34"]) false) 7%nat
  = [ g_socket_set_timeout 7%nat 5;
      g_object_ref 7%nat;
      g_input_stream_read_all_async 7%nat 260;
      g_debug "Querying example.com";
      g_debug "Fetching https://dns.example/dns-query?ct=application/dns-json&name=example.com&type=A";
      soup_session_send_async "GET"
        "https://dns.example/dns-query?ct=application/dns-json&name=example.com&type=A";
      g_debug "example.com = 93.184.216.34";
      g_output_stream_write_all_async 7%nat
        [93; 184; 216; 34; 0; 0; 0; 0; 0; 0; 0; 0; 0; 0; 0; 0];
      g_debug "Failed to query example.com";
      g_object_unref 7%nat;
      g_free_query ].
Proof. reflexivity. Qed.

(** * The claims *)

(** ** The answer selector *)

(** C1.  Last match wins.  When the answer array holds two or more records
    of the wanted type whose data parse as addresses of the requested
    family, the selector raises the flag and leaves in the response buffer
    the address of the last of them in array order; and at every such
    record the address selected so far is overwritten by that record's. *)
Theorem C1_last_match_wins (query : nss_tls_query) (answers : list JsonNode) :
  let valid := omap (valid_address (af (req query)) (type query)) answers in
  (2 ≤ length valid)%nat →
  (∃ a, last valid = Some a ∧
        length a = address_size (af (req query)) ∧
        ok (scan answers query) = true ∧
        addr (res (scan answers query)) = a ++ drop (length a) (addr (res query))) ∧
  (∀ pre e post b,
     answers = pre ++ e :: post →
     valid_address (af (req query)) (type query) e = Some b →
     addr (res (scan (pre ++ [e]) query)) = b ++ drop (length b) (addr (res query))).
Proof.
  intros valid Hlen.
  assert (supported (af (req query))) as Haf.
  { subst valid. destruct answers as [|x answers]; [simpl in Hlen; lia|].
    destruct (omap _ (x :: answers)) as [|a l] eqn:Hl; [simpl in Hlen; lia|].
    assert (a ∈ omap (valid_address (af (req query)) (type query)) (x :: answers)) as Ha
      by (rewrite Hl; left).
    apply list_elem_of_omap in Ha as (e & _ & He).
    by eapply valid_address_supported. }
  split.
  - destruct (last valid) as [a|] eqn:Hlast.
    2: { apply last_None in Hlast. rewrite Hlast in Hlen. simpl in Hlen. lia. }
    exists a. rewrite (scan_select answers query Haf). fold valid in Hlast.
    unfold select. subst valid. rewrite Hlast. simpl.
    split; [done|]. split; [|done].
    by eapply (select_length _ answers).
  - intros pre e post b -> Hb.
    rewrite (scan_select _ query Haf), select_app.
    unfold select at 1. simpl. by rewrite Hb.
Qed.

Lemma C1_last_match_wins_witness :
  let answers := [ Sample.record 1 "1.1.1.1"; Sample.record 5 "alias.example.";
                   Sample.record 1 "2.2.2.2" ] in
  ok (scan answers Sample.query_A) = true ∧
  addr (res (scan answers Sample.query_A)) = [2; 2; 2; 2; 0; 0; 0; 0; 0; 0; 0; 0; 0; 0; 0; 0].
Proof.
  intros answers.
  destruct (C1_last_match_wins Sample.query_A answers) as [(a & Ha & _ & Hok & Haddr) _].
  { vm_compute. lia. }
  split; [exact Hok|].
  rewrite Haddr. vm_compute in Ha. injection Ha as <-. reflexivity.
Defined.

(** C2.  A failed parse is skipped.  In an array where a record of the
    wanted type parses to an address and a later record of the same type
    carries data that does not parse, the array selects what it selects
    without the failing record; the flag is raised; the address is that of
    the last record that parses, which is the earlier one when no later
    record parses.  And whatever the array, the flag stays down only if no
    record of the wanted type parses. *)
Theorem C2_failed_parse_is_skipped
    (query : nss_tls_query) (pre mid post : list JsonNode) (e bad : JsonNode)
    (a : list octet) (s : string) :
  let family := af (req query) in
  let answers := pre ++ e :: mid ++ bad :: post in
  valid_address family (type query) e = Some a →
  record_type bad = Some (type query) →
  record_data bad = Some s →
  parse_address family s = None →
  scan answers query = scan (pre ++ e :: mid ++ post) query ∧
  ok (scan answers query) = true ∧
  (∃ b, select family answers (type query) = Some b ∧
        addr (res (scan answers query)) = b ++ drop (length b) (addr (res query))) ∧
  (Forall (λ x, valid_address family (type query) x = None) (mid ++ post) →
   addr (res (scan answers query)) = a ++ drop (length a) (addr (res query))) ∧
  (∀ l, ok (scan l query) = false →
        Forall (λ x, valid_address family (type query) x = None) l).
Proof.
  intros family answers He Ht Hd Hs.
  assert (supported family) as Haf by (by eapply valid_address_supported).
  assert (valid_address family (type query) bad = None) as Hbad.
  { unfold valid_address. rewrite Ht. simpl. rewrite Z.eqb_refl, Hd. done. }
  assert (select family answers (type query) =
          select family (pre ++ e :: mid ++ post) (type query)) as Hsame.
  { subst answers.
    rewrite !(select_app _ pre), !select_cons, !(select_app _ mid), select_cons.
    by rewrite Hbad. }
  assert (∃ b, select family answers (type query) = Some b) as [b Hb].
  { subst answers. rewrite select_app, select_cons, He.
    destruct (select family (mid ++ bad :: post) (type query)); eauto. }
  rewrite !(scan_select _ query Haf). fold family. rewrite <- Hsame, Hb. simpl.
  split; [done|]. split; [done|]. split; [eauto|]. split.
  - intros Hnone. apply select_None in Hnone.
    rewrite Hsame, select_app, select_cons, He in Hb.
    rewrite select_app in Hnone.
    destruct (select family post (type query)) as [x|] eqn:Hpost; [done|].
    rewrite select_app, Hpost, Hnone in Hb. simpl in Hb. by injection Hb as <-.
  - intros l Hok. apply select_None.
    rewrite (scan_select _ query Haf) in Hok. fold family in Hok.
    by destruct (select family l (type query)).
Qed.

Lemma C2_failed_parse_is_skipped_witness :
  let answers := [ Sample.record 1 "1.1.1.1"; Sample.record 1 "not-an-address";
                   Sample.record 1 "1.2.3" ] in
  ok (scan answers Sample.query_A) = true ∧
  addr (res (scan answers Sample.query_A)) = [1; 1; 1; 1; 0; 0; 0; 0; 0; 0; 0; 0; 0; 0; 0; 0].
Proof.
  intros answers.
  destruct (C2_failed_parse_is_skipped Sample.query_A [] []
              [Sample.record 1 "1.2.3"] (Sample.record 1 "1.1.1.1")
              (Sample.record 1 "not-an-address") [1; 1; 1; 1] "not-an-address")
    as (_ & Hok & _ & Haddr & _); try reflexivity.
  split; [exact Hok|].
  apply Haddr. repeat constructor.
Defined.

Lemma on_answer_malformed index_ e query :
  malformed (type query) e →
  (on_answer index_ e query).2 = query ∧ Forall is_log (on_answer index_ e query).1.
Proof.
  intros Hbad. split; [|apply on_answer_logs].
  unfold on_answer. unfold malformed, record_type in Hbad.
  destruct Hbad as [-> | [Ht Hd]]; [done|].
  destruct (json_object_get_member _ "type") as [type_|]; [|done].
  simpl in Ht. injection Ht as ->. rewrite Z.eqb_refl. cbn [negb].
  destruct Hd as [-> | (data & -> & ->)]; done.
Qed.

(** C9.  Malformed records are skipped.  A record without a "type" member,
    or of the wanted type but without a "data" member or with data that is
    not a string, leaves the query (so also the selected address and the
    flag) exactly as it found it and causes log lines only; the scan goes
    on behind it, and the array selects, and the resolution yields, what
    they do without that record. *)
Theorem C9_malformed_record_is_skipped (query : nss_tls_query) (e : JsonNode) :
  malformed (type query) e →
  (∀ index_, (on_answer index_ e query).2 = query ∧
             Forall is_log (on_answer index_ e query).1) ∧
  (∀ pre post, scan (pre ++ e :: post) query = scan (pre ++ post) query) ∧
  (∀ pre post r r',
     answer_array r = Some (pre ++ e :: post) →
     answer_array r' = Some (pre ++ post) →
     resolution query r = resolution query r').
Proof.
  intros Hbad.
  assert (∀ q pre post, type q = type query →
            scan (pre ++ e :: post) q = scan (pre ++ post) q) as Hskip.
  { intros q pre post Hq. rewrite !scan_app, scan_cons. f_equal.
    apply on_answer_malformed. destruct (scan_frame pre q) as [_ ->]. by rewrite Hq. }
  split; [intros; by apply on_answer_malformed|]. split; [intros; by apply Hskip|].
  intros pre post r r' Hr Hr'. unfold resolution. rewrite Hr, Hr'. simpl.
  by rewrite Hskip.
Qed.

Lemma C9_malformed_record_is_skipped_witness :
  let untyped := JsonObject [("name", JsonString "example.com.")] in
  scan [ Sample.record 1 "1.1.1.1"; untyped; Sample.record 1 "2.2.2.2" ] Sample.query_A
  = scan [ Sample.record 1 "1.1.1.1"; Sample.record 1 "2.2.2.2" ] Sample.query_A.
Proof.
  intros untyped.
  destruct (C9_malformed_record_is_skipped Sample.query_A untyped) as (_ & Hskip & _).
  { left. reflexivity. }
  exact (Hskip [Sample.record 1 "1.1.1.1"] [Sample.record 1 "2.2.2.2"]).
Defined.

(** ** The session *)

Lemma accept_inv h query r query' url :
  accept h query r = Some (query', url) →
  frame_ok h r = true ∧
  buildQuery h (req query) = Some (url, type query') ∧
  query' = set_type (type query') query ∧
  supported (af (req query)).
Proof.
  unfold accept. destruct (frame_ok h r); [|done].
  destruct (buildQuery h (req query)) as [[u t]|] eqn:Hb; simpl; [|done].
  intros [= <- <-]. repeat split; try done.
  unfold buildQuery, type_of_family, supported in *.
  destruct (af (req query) =? AF_INET) eqn:H4; [left; lia|].
  destruct (af (req query) =? AF_INET6) eqn:H6; [right; lia|done].
Qed.

Lemma accepted_inv h w c q1 url :
  accepted h w c = Some (q1, url) →
  req q1 = received h w ∧ supported (af (received h w)) ∧
  addr (res q1) = replicate sizeof_res 0 ∧ connection q1 = c ∧
  (length (incoming w) ≥ sizeof_req h)%nat ∧ read_failure w = None.
Proof.
  unfold accepted. intros H. apply accept_inv in H as (Hf & _ & -> & Haf).
  repeat split; try done.
  - unfold frame_ok, arrival in Hf. simpl in Hf.
    apply andb_prop in Hf as [_ Hf]. apply Nat.eqb_eq in Hf.
    rewrite length_take in Hf. lia.
  - unfold frame_ok, arrival in Hf. simpl in Hf.
    apply andb_prop in Hf as [Hf _]. by apply bool_decide_eq_true in Hf.
Qed.

(** C3.  No answer, no response.  In a session that reached the resolver
    and got an answer array: if the array is empty, or holds no record of
    the wanted type, or no such record parses (that is, if no record is a
    valid match), the selector leaves the flag down and nothing is ever
    written to the connection.  And whenever bytes are written, the
    session had reached the resolver and some record of the answer array
    is a valid match. *)
Theorem C3_no_answer_no_response (h : nss_tls_h) (w : world) (c : GSocketConnection) :
  (∀ q1 url answers,
     accepted h w c = Some (q1, url) →
     answer_array (resolver w) = Some answers →
     Forall (λ e, valid_address (af (req q1)) (type q1) e = None) answers →
     ok (scan answers (set_ok false q1)) = false ∧
     written (session_trace h w c) = []) ∧
  (∀ buffer,
     buffer ∈ written (session_trace h w c) →
     ∃ q1 url answers e a,
       accepted h w c = Some (q1, url) ∧
       answer_array (resolver w) = Some answers ∧
       e ∈ answers ∧
       valid_address (af (req q1)) (type q1) e = Some a).
Proof.
  rewrite session_written. split.
  - intros q1 url answers Hacc Hans Hnone.
    pose proof (accepted_inv _ _ _ _ _ Hacc) as (Hreq & Haf & _).
    rewrite <- Hreq in Haf. rewrite Hacc. unfold resolution. rewrite Hans. simpl.
    rewrite (scan_select answers (set_ok false q1)) by done. simpl.
    apply select_None in Hnone. by rewrite Hnone.
  - intros buffer Hin.
    destruct (accepted h w c) as [[q1 url]|] eqn:Hacc; [|by apply not_elem_of_nil in Hin].
    pose proof (accepted_inv _ _ _ _ _ Hacc) as (Hreq & Haf & _).
    rewrite <- Hreq in Haf. unfold resolution in Hin.
    destruct (answer_array (resolver w)) as [answers|]; simpl in Hin;
      [|by apply not_elem_of_nil in Hin].
    rewrite (scan_select answers (set_ok false q1)) in Hin by done. simpl in Hin.
    destruct (select (af (req q1)) answers (type q1)) as [a|] eqn:Hsel; simpl in Hin;
      [|by apply not_elem_of_nil in Hin].
    apply last_Some_elem_of, list_elem_of_omap in Hsel as (e & He & Hv).
    by exists q1, url, answers, e, a.
Qed.

Lemma C3_no_answer_no_response_witness :
  let w := World (Sample.frame (Req AF_INET6 "nope.invalid")) None
                 (Sample.answers [Sample.record 1 "93.184.216.34"; Sample.record 28 "1.2.3.4"])
                 true in
  written (session_trace Sample.header w 7%nat) = [].
Proof.
  intros w.
  destruct (C3_no_answer_no_response Sample.header w 7%nat) as [Hnone _].
  apply (Hnone (Query (Req AF_INET6 "nope.invalid") (Res (replicate sizeof_res 0)) 28 7%nat false)
           "https://dns.example/dns-query?ct=application/dns-json&name=nope.invalid&type=AAAA"
           [Sample.record 1 "93.184.216.34"; Sample.record 28 "1.2.3.4"]);
    [reflexivity | reflexivity | repeat constructor].
Defined.

Lemma deliver_past h w w' s :
  past_request s → resolver w = resolver w' → write_ok w = write_ok w' →
  deliver h w s = deliver h w' s ∧ past_request (deliver h w s).2.
Proof.
  intros Hs Hr Hw. destruct s as [q n | q | q |]; [done| | |done]; simpl.
  - rewrite <- Hr. split; [done|].
    destruct (on_res_shape q (resolver w)) as (logs & _ & ->).
    by destruct (resolution q (resolver w)).
  - by rewrite <- Hw.
Qed.

Lemma deliveries_past h n w w' s :
  past_request s → resolver w = resolver w' → write_ok w = write_ok w' →
  deliveries h n w s = deliveries h n w' s.
Proof.
  revert s. induction n as [|n IH]; intros s Hs Hr Hw; [done|]. simpl.
  destruct (deliver_past h w w' s Hs Hr Hw) as [<- Hpast].
  destruct (deliver h w s) as [es s']. by rewrite (IH s' Hpast Hr Hw).
Qed.

Lemma deliveries_S h n w s :
  deliveries h (S n) w s = let '(es, s') := deliver h w s in es +> deliveries h n w s'.
Proof. done. Qed.

Lemma run_session_truncated h w c :
  run_session h (truncated h w) c = run_session h w c.
Proof.
  unfold run_session, on_incoming. cbn [after fst snd app].
  rewrite !(deliveries_S h 2).
  assert (deliver h (truncated h w) (AwaitingRequest
            (set_connection c (g_new0_query h)) (sizeof_req h)) =
          deliver h w (AwaitingRequest
            (set_connection c (g_new0_query h)) (sizeof_req h))) as ->.
  { unfold deliver, g_input_stream_read_all, truncated. simpl.
    by rewrite take_take, Nat.min_id. }
  unfold deliver.
  set (r := g_input_stream_read_all _ _ w). set (q := set_req _ _).
  destruct (on_req_shape h q r) as (logs & _ & ->).
  destruct (accept h q r) as [[q1 url]|]; by rewrite (deliveries_past h 2 _ w).
Qed.

(** C4, as the specification states it, fails: a peer that sends one byte
    more than a request is not turned away.  The first 260 bytes are read
    and served, the HTTPS request is issued and the response is written. *)
Lemma C4_oversized_frame_is_served :
  let w := World (Sample.frame (Req AF_INET "example.com") ++ [0]) None
                 (Sample.answers [Sample.record 1 "93.184.216.34"]) true in
  length (incoming w) ≠ sizeof_req Sample.header ∧
  requested (session_trace Sample.header w 7%nat) =
    [ ("GET", "https://dns.example/dns-query?ct=application/dns-json&name=example.com&type=A") ] ∧
  written (session_trace Sample.header w 7%nat) =
    [ [93; 184; 216; 34; 0; 0; 0; 0; 0; 0; 0; 0; 0; 0; 0; 0] ].
Proof. vm_compute. repeat split. lia. Qed.

(** C4, amended.  A request whose frame is shorter than the fixed request
    size, or whose family is neither of the two supported ones, aborts the
    session at once: after the calls of [on_incoming] there are log lines
    and the release, no HTTPS request is issued and nothing is written.
    Bytes behind the fixed request size are never read: the session is the
    one of a peer that stopped after them. *)
Theorem C4_rejected_request_aborts (h : nss_tls_h) (w : world) (c : GSocketConnection) :
  ((length (incoming w) < sizeof_req h)%nat ∨ ¬ supported (af (received h w)) →
   requested (session_trace h w c) = [] ∧
   written (session_trace h w c) = [] ∧
   ∃ logs, Forall is_log logs ∧
     run_session h w c =
       ([ g_socket_set_timeout c (NSS_TLS_TIMEOUT h); g_object_ref c;
          g_input_stream_read_all_async c (sizeof_req h) ] ++ logs ++
        [ g_object_unref c; g_free_query ], Closed)) ∧
  session_trace h w c = session_trace h (truncated h w) c.
Proof.
  split; [|unfold session_trace; by rewrite run_session_truncated].
  intros Hbad.
  assert (accepted h w c = None) as Hacc.
  { destruct (accepted h w c) as [[q1 url]|] eqn:Hacc; [|done].
    apply accepted_inv in Hacc as (_ & Haf & _ & _ & Hlen & _).
    destruct Hbad; [lia|done]. }
  rewrite session_written, session_requested, Hacc.
  split; [done|]. split; [done|].
  destruct (session_shape h w c) as (l1 & l2 & l3 & Hl1 & _ & _ & Heq).
  rewrite Hacc in Heq. by exists l1.
Qed.

Lemma C4_rejected_request_aborts_witness :
  let w := World (take 100 (Sample.frame (Req AF_INET "example.com"))) None
                 (Sample.answers [Sample.record 1 "93.184.216.34"]) true in
  requested (session_trace Sample.header w 7%nat) = [] ∧
  written (session_trace Sample.header w 7%nat) = [].
Proof.
  intros w.
  destruct (C4_rejected_request_aborts Sample.header w 7%nat) as [Habort _].
  destruct Habort as (Hreq & Hwr & _); [left; vm_compute; lia|].
  split; [exact Hreq | exact Hwr].
Defined.

(** C5, as the specification states it, fails: the status code of the
    response is never looked at.  A response with status 500 whose body is
    a JSON answer is answered like any other. *)
Lemma C5_error_status_is_answered :
  let body := json_loaded (Some (JsonObject
                [("Answer", JsonArray [Sample.record 1 "93.184.216.34"])])) in
  let w := World (Sample.frame (Req AF_INET "example.com")) None
                 (soup_send_stream 500 body) true in
  written (session_trace Sample.header w 7%nat) =
    [ [93; 184; 216; 34; 0; 0; 0; 0; 0; 0; 0; 0; 0; 0; 0; 0] ].
Proof. reflexivity. Qed.

(** C5, amended.  When no HTTP response is obtained from the resolver (a
    transport failure), the session aborts: [on_res] logs a warning and
    releases the session, nothing is written, and the request is not sent
    again.  The status code of a response that was obtained plays no part:
    [on_res] does the same for every status. *)
Theorem C5_transport_failure_aborts (h : nss_tls_h) (w : world) (c : GSocketConnection)
    (err : option string) :
  (resolver w = soup_send_error err →
   written (session_trace h w c) = [] ∧
   (length (requested (session_trace h w c)) ≤ 1)%nat ∧
   (run_session h w c).2 = Closed ∧
   ∀ query, ∃ message,
     on_res query (resolver w) =
       ([ g_warning message; g_object_unref (connection query); g_free_query ], Closed)) ∧
  (∀ query status status' body,
     on_res query (soup_send_stream status body) =
     on_res query (soup_send_stream status' body)).
Proof.
  split; [|done].
  intros Hr. rewrite session_written, session_requested, Hr.
  split; [by destruct (accepted h w c) as [[q1 url]|]|].
  split; [destruct (accepted h w c) as [[q1 url]|]; simpl; lia|].
  rewrite <- Hr. split; [apply session_closed|].
  intros query. rewrite Hr. by eexists.
Qed.

Lemma C5_transport_failure_aborts_witness :
  let w := World (Sample.frame (Req AF_INET "example.com")) None
                 (soup_send_error (Some "Connection terminated unexpectedly")) true in
  written (session_trace Sample.header w 7%nat) = [] ∧
  requested (session_trace Sample.header w 7%nat) =
    [ ("GET", "https://dns.example/dns-query?ct=application/dns-json&name=example.com&type=A") ].
Proof.
  intros w.
  destruct (C5_transport_failure_aborts Sample.header w 7%nat
              (Some "Connection terminated unexpectedly")) as [Habort _].
  destruct Habort as (Hwr & _); [reflexivity|].
  split; [exact Hwr | reflexivity].
Defined.

(** C6.  The query builder.  For a request that was read in full and whose
    family is supported, [on_req] sets the wanted type to 1 and uses the
    mnemonic "A" for IPv4, 28 and "AAAA" for IPv6; it issues one HTTPS GET
    for the URL made of the resolver's host, the path /dns-query, the JSON
    content-type hint, the name as it stands in the request and the
    mnemonic; and it goes on to wait for the resolver.  The mapping is one
    to one: two families with the same code, or the same mnemonic, are the
    same family. *)
Theorem C6_query_builder (h : nss_tls_h) (query : nss_tls_query) (r : read_all_result) :
  (read_ok r = true → read_len r = sizeof_req h → supported (af (req query)) →
   ∃ code mnemonic logs,
     (af (req query) = AF_INET ∧ code = 1 ∧ mnemonic = "A" ∨
      af (req query) = AF_INET6 ∧ code = 28 ∧ mnemonic = "AAAA") ∧
     Forall is_log logs ∧
     on_req h query r =
       (logs ++ [ soup_session_send_async "GET"
                    ("https://" +:+ NSS_TLS_RESOLVER h
                       +:+ "/dns-query?ct=application/dns-json&name="
                       +:+ name (req query) +:+ "&type=" +:+ mnemonic) ],
        Resolving (set_type code query))) ∧
  (∀ af1 af2 code1 code2 mnemonic1 mnemonic2,
     type_of_family af1 = Some (code1, mnemonic1) →
     type_of_family af2 = Some (code2, mnemonic2) →
     code1 = code2 ∨ mnemonic1 = mnemonic2 → af1 = af2).
Proof.
  split.
  - intros Hok Hlen Haf.
    destruct (on_req_shape h query r) as (logs & Hlogs & Heq).
    unfold accept, frame_ok, buildQuery, type_of_family in Heq.
    rewrite Hok, Hlen, Nat.eqb_refl in Heq. simpl in Heq.
    destruct Haf as [Haf | Haf]; rewrite Haf in Heq; simpl in Heq.
    + exists 1, "A", logs. split; [by left|]. split; [done|]. exact Heq.
    + exists 28, "AAAA", logs. split; [by right|]. split; [done|]. exact Heq.
  - unfold type_of_family. intros af1 af2 code1 code2 m1 m2 H1 H2 Hsame.
    destruct (af1 =? AF_INET) eqn:E1, (af2 =? AF_INET) eqn:E2;
      [lia| | |];
      try destruct (af1 =? AF_INET6) eqn:E3; try destruct (af2 =? AF_INET6) eqn:E4;
      simplify_eq; try lia; by destruct Hsame.
Qed.

Lemma C6_query_builder_witness :
  ∃ logs,
    on_req Sample.header Sample.query_AAAA (ReadAll true 260 None []) =
      (logs ++ [ soup_session_send_async "GET"
                   "https://dns.example/dns-query?ct=application/dns-json&name=example.com&type=AAAA" ],
       Resolving Sample.query_AAAA).
Proof.
  destruct (C6_query_builder Sample.header Sample.query_AAAA (ReadAll true 260 None []))
    as [Hbuild _].
  destruct Hbuild as (code & mnemonic & logs & Hmap & _ & Heq);
    [reflexivity | reflexivity | right; reflexivity |].
  exists logs. rewrite Heq.
  destruct Hmap as [(Haf & _) | (_ & -> & ->)]; [discriminate Haf | reflexivity].
Defined.

(** C7.  A response without an answer array is a parse failure.  When the
    body parses as JSON but its top-level value is not an object, or is an
    object without an "Answer" member that is an array, [on_res] logs a
    warning and releases the session; the session is closed and nothing
    was written. *)
Theorem C7_missing_answer_is_parse_failure (h : nss_tls_h) (w : world)
    (c : GSocketConnection) (status : Z) (root : option JsonNode) :
  resolver w = soup_send_stream status (json_loaded root) →
  (∀ members, root ≠ Some (JsonObject members)) ∨
  (∃ members, root = Some (JsonObject members) ∧
              ∀ elements, lookup_member members "Answer" ≠ Some (JsonArray elements)) →
  (∀ query, ∃ message,
     on_res query (resolver w) =
       ([ g_warning message; g_object_unref (connection query); g_free_query ], Closed)) ∧
  written (session_trace h w c) = [] ∧
  (run_session h w c).2 = Closed.
Proof.
  intros Hr Hroot.
  assert (answer_array (resolver w) = None) as Hnone.
  { rewrite Hr. unfold answer_array, json_object_get_array_member.
    destruct Hroot as [Hno | (members & -> & Hno)].
    - destruct root as [[]|]; try done. by destruct (Hno members).
    - simpl. destruct (lookup_member members "Answer") as [[]|] eqn:Hl; try done.
      by destruct (Hno elements). }
  split; [|split; [|apply session_closed]].
  - intros query. rewrite Hr in *. unfold on_res, on_res_fail.
    unfold answer_array in Hnone.
    destruct (json_node_get_object root) as [rooto|]; [|by eexists].
    rewrite Hnone. by eexists.
  - rewrite session_written. destruct (accepted h w c) as [[q1 url]|]; [|done].
    unfold resolution. by rewrite Hnone.
Qed.

Lemma C7_missing_answer_is_parse_failure_witness :
  let root := Some (JsonObject [("Status", JsonInt 3); ("Question", JsonArray [])]) in
  let w := World (Sample.frame (Req AF_INET "example.com")) None
                 (soup_send_stream 200 (json_loaded root)) true in
  written (session_trace Sample.header w 7%nat) = [] ∧
  (run_session Sample.header w 7%nat).2 = Closed.
Proof.
  intros root w.
  destruct (C7_missing_answer_is_parse_failure Sample.header w 7%nat 200 root)
    as (_ & Hwr & Hclosed); [reflexivity | | by split].
  right. eexists. split; [reflexivity|]. intros elements. vm_compute. discriminate.
Defined.

(** C8.  Released exactly once.  Whatever the peer, the resolver and the
    connection do, the session ends closed; its trace ends with the release
    of the connection reference followed by the release of the query, and
    nothing before that releases either; and a closed session does nothing
    more, whatever is delivered. *)
Theorem C8_released_exactly_once (h : nss_tls_h) (w : world) (c : GSocketConnection) :
  (run_session h w c).2 = Closed ∧
  (∃ pre, session_trace h w c = pre ++ [ g_object_unref c; g_free_query ] ∧
          Forall (λ e, ¬ is_release e) pre) ∧
  (∀ n w', deliveries h n w' Closed = ([], Closed)).
Proof.
  split; [apply session_closed|]. split.
  - unfold session_trace.
    destruct (session_shape h w c) as (l1 & l2 & l3 & Hl1 & Hl2 & Hl3 & ->).
    apply logs_no_release in Hl1, Hl2, Hl3. cbn [fst].
    set (start := [g_socket_set_timeout c (NSS_TLS_TIMEOUT h); g_object_ref c;
                   g_input_stream_read_all_async c (sizeof_req h)]).
    assert (Forall (λ e, ¬ is_release e) start) as Hstart
      by (repeat constructor; by intros []).
    destruct (accepted h w c) as [[q1 url]|].
    2: { exists (start ++ l1). split; [by rewrite <- app_assoc|].
         by apply Forall_app. }
    destruct (resolution q1 (resolver w)) as [q2|].
    + exists (start ++ l1 ++ [soup_session_send_async "GET" url] ++ l2
                ++ [g_output_stream_write_all_async c (take sizeof_res (addr (res q2)))]
                ++ l3).
      split; [by rewrite <- !app_assoc|]. rewrite !Forall_app.
      repeat split; try done; repeat constructor; by intros [].
    + exists (start ++ l1 ++ [soup_session_send_async "GET" url] ++ l2).
      split; [by rewrite <- !app_assoc|]. rewrite !Forall_app.
      repeat split; try done; repeat constructor; by intros [].
  - intros n w'. induction n as [|n IH]; [done|]. simpl. by rewrite IH.
Qed.

(** C10.  The tail of an IPv4 response is zero.  In a session whose request
    is for IPv4, a buffer written to the connection has the fixed size of
    the response and consists of a 4-byte address followed by zeros. *)
Theorem C10_ipv4_tail_is_zero (h : nss_tls_h) (w : world) (c : GSocketConnection)
    (buffer : list octet) :
  af (received h w) = AF_INET →
  buffer ∈ written (session_trace h w c) →
  length buffer = sizeof_res ∧
  drop NS_INADDRSZ buffer = replicate (sizeof_res - NS_INADDRSZ) 0 ∧
  ∃ a, length a = NS_INADDRSZ ∧ buffer = a ++ replicate (sizeof_res - NS_INADDRSZ) 0.
Proof.
  intros Haf Hin. rewrite session_written in Hin.
  destruct (accepted h w c) as [[q1 url]|] eqn:Hacc; [|by apply not_elem_of_nil in Hin].
  apply accepted_inv in Hacc as (Hreq & Hsup & Hzero & _).
  unfold resolution in Hin.
  destruct (answer_array (resolver w)) as [answers|]; simpl in Hin;
    [|by apply not_elem_of_nil in Hin].
  rewrite (scan_select answers (set_ok false q1)) in Hin by (simpl; by rewrite Hreq).
  simpl in Hin. rewrite Hreq, Haf in Hin.
  destruct (select AF_INET answers (type q1)) as [a|] eqn:Hsel; simpl in Hin;
    [|by apply not_elem_of_nil in Hin].
  apply list_elem_of_singleton in Hin. apply select_length in Hsel.
  change (address_size AF_INET) with NS_INADDRSZ in Hsel.
  rewrite Hzero, drop_replicate in Hin.
  assert (buffer = a ++ replicate (sizeof_res - NS_INADDRSZ) 0) as ->.
  { rewrite Hin, Hsel. apply take_ge. rewrite length_app, length_replicate, Hsel.
    unfold sizeof_res, NS_IN6ADDRSZ, NS_INADDRSZ. lia. }
  split; [rewrite length_app, length_replicate, Hsel; reflexivity|].
  split; [by rewrite drop_app_length' by done|]. by exists a.
Qed.

Lemma C10_ipv4_tail_is_zero_witness :
  drop NS_INADDRSZ [93; 184; 216; 34; 0; 0; 0; 0; 0; 0; 0; 0; 0; 0; 0; 0]
  = replicate (sizeof_res - NS_INADDRSZ) 0.
Proof.
  pose (w := World (Sample.frame (Req AF_INET "example.com")) None
                   (Sample.answers [Sample.record 1 "93.184.216.34"]) true).
  destruct (C10_ipv4_tail_is_zero Sample.header w 7%nat
              [93; 184; 216; 34; 0; 0; 0; 0; 0; 0; 0; 0; 0; 0; 0; 0])
    as (_ & Htail & _); [reflexivity | vm_compute; left | exact Htail].
Defined.

(** * Further properties of the callbacks *)

Lemma observable_logs logs : Forall is_log logs → observable logs = [].
Proof. by apply omap_logs. Qed.

Lemma observable_app es1 es2 : observable (es1 ++ es2) = observable es1 ++ observable es2.
Proof. apply omap_app. Qed.

Lemma address_size_le af : (address_size af ≤ sizeof_res)%nat.
Proof.
  unfold address_size, sizeof_res, NS_INADDRSZ, NS_IN6ADDRSZ. destruct (af =? AF_INET); lia.
Qed.

(** The resolution of the code and the response of the session agree. *)
Lemma resolution_response h w c q1 url :
  accepted h w c = Some (q1, url) →
  response h w c = (λ q2, take sizeof_res (addr (res q2))) <$> resolution q1 (resolver w).
Proof.
  intros Hacc. unfold response, resolution. rewrite Hacc. simpl.
  apply accepted_inv in Hacc as (Hreq & Haf & Hzero & _). rewrite <- Hreq in Haf.
  destruct (answer_array (resolver w)) as [answers|]; simpl; [|done].
  rewrite (scan_select answers (set_ok false q1)) by done. simpl.
  destruct (select (af (req q1)) answers (type q1)) as [a|] eqn:Hsel; simpl.
  2: { by destruct (ok q1). }
  apply select_length in Hsel. pose proof (address_size_le (af (req q1))).
  rewrite Hzero, drop_replicate, take_ge; [done|].
  rewrite length_app, length_replicate. lia.
Qed.

(** X1.  The protocol of a session.  Without its log lines, the trace of
    every session is: the timeout, the reference and the read of
    [on_incoming]; for an accepted request, one HTTPS GET; for a request
    that has a response, one write of it to the connection; and last the
    release of the connection and of the query. *)
Theorem X1_session_protocol (h : nss_tls_h) (w : world) (c : GSocketConnection) :
  observable (session_trace h w c) =
    [ g_socket_set_timeout c (NSS_TLS_TIMEOUT h); g_object_ref c;
      g_input_stream_read_all_async c (sizeof_req h) ] ++
    match accepted h w c with
    | None => [ g_object_unref c; g_free_query ]
    | Some (_, url) =>
        soup_session_send_async "GET" url ::
        match response h w c with
        | Some buffer =>
            [ g_output_stream_write_all_async c buffer; g_object_unref c; g_free_query ]
        | None => [ g_object_unref c; g_free_query ]
        end
    end.
Proof.
  unfold session_trace.
  destruct (session_shape h w c) as (l1 & l2 & l3 & Hl1 & Hl2 & Hl3 & ->). cbn [fst].
  rewrite !observable_app, (observable_logs l1) by done.
  destruct (accepted h w c) as [[q1 url]|] eqn:Hacc; [|done].
  rewrite (resolution_response h w c q1 url Hacc).
  rewrite !observable_app, (observable_logs l2) by done.
  destruct (resolution q1 (resolver w)) as [q2|]; [|done].
  by rewrite !observable_app, (observable_logs l3).
Qed.

(** X2.  The response has one size.  Whatever the family, a session writes
    at most one buffer, and a buffer it writes has the size of the response
    structure. *)
Theorem X2_response_size (h : nss_tls_h) (w : world) (c : GSocketConnection) :
  written (session_trace h w c) = option_list (response h w c) ∧
  (length (written (session_trace h w c)) ≤ 1)%nat ∧
  ∀ buffer, response h w c = Some buffer → length buffer = sizeof_res.
Proof.
  assert (written (session_trace h w c) = option_list (response h w c)) as Hw.
  { rewrite session_written.
    destruct (accepted h w c) as [[q1 url]|] eqn:Hacc.
    - rewrite (resolution_response h w c q1 url Hacc).
      by destruct (resolution q1 (resolver w)).
    - unfold response. by rewrite Hacc. }
  split; [done|]. split; [rewrite Hw; destruct (response h w c); simpl; lia|].
  unfold response. intros buffer Hb.
  destruct (accepted h w c) as [[q1 url]|]; simpl in Hb; [|done].
  destruct (answer_array (resolver w)) as [answers|]; simpl in Hb; [|done].
  destruct (select (af (req q1)) answers (type q1)) as [a|] eqn:Hsel; simpl in Hb; [|done].
  injection Hb as <-. apply select_length in Hsel.
  pose proof (address_size_le (af (req q1))).
  rewrite length_app, length_replicate. lia.
Qed.

Lemma X2_response_size_witness :
  let w := World (Sample.frame (Req AF_INET "example.com")) None
                 (Sample.answers [Sample.record 1 "93.184.216.34"]) true in
  length [93; 184; 216; 34; 0; 0; 0; 0; 0; 0; 0; 0; 0; 0; 0; 0] = sizeof_res.
Proof.
  intros w.
  destruct (X2_response_size Sample.header w 7%nat) as (_ & _ & Hsize).
  apply Hsize. reflexivity.
Defined.

(** X3.  Records of another type are passed over in silence.  A record whose
    type is not the wanted one (a CNAME in front of the A records, say)
    leaves the query as it was and causes no log line, and the array selects
    what it selects without that record. *)
Theorem X3_other_type_is_skipped (query : nss_tls_query) (e : JsonNode) (t : Z) :
  record_type e = Some t → t ≠ type query →
  (∀ index_, on_answer index_ e query = ([], query)) ∧
  (∀ pre post, scan (pre ++ e :: post) query = scan (pre ++ post) query).
Proof.
  intros Ht Hne.
  assert (∀ q index_, type q = type query → on_answer index_ e q = ([], q)) as Hskip.
  { intros q index_ Hq. unfold on_answer. unfold record_type in Ht.
    destruct (json_object_get_member _ "type") as [type_|]; [|done].
    simpl in Ht. injection Ht as ->. rewrite Hq.
    by destruct (Z.eqb_spec t (type query)). }
  split; [intros; by apply Hskip|].
  intros pre post. rewrite !scan_app, scan_cons, Hskip; [done|].
  by destruct (scan_frame pre query) as [_ ->].
Qed.

Lemma X3_other_type_is_skipped_witness :
  scan [ Sample.record 5 "alias.example."; Sample.record 1 "1.1.1.1" ] Sample.query_A
  = scan [ Sample.record 1 "1.1.1.1" ] Sample.query_A.
Proof.
  destruct (X3_other_type_is_skipped Sample.query_A (Sample.record 5 "alias.example.") 5)
    as [_ Hskip]; [reflexivity | discriminate |].
  exact (Hskip [] [Sample.record 1 "1.1.1.1"]).
Defined.

(** X4.  A failed read ends the session.  When the read of the request
    fails, however many bytes had arrived, [on_req] logs a warning, with the
    message of the error if there is one, and releases the session: no
    request goes to the resolver and nothing is written. *)
Theorem X4_read_failure_aborts (h : nss_tls_h) (w : world) (c : GSocketConnection)
    (err : option string) :
  read_failure w = Some err →
  session_trace h w c =
    [ g_socket_set_timeout c (NSS_TLS_TIMEOUT h); g_object_ref c;
      g_input_stream_read_all_async c (sizeof_req h);
      g_warning (with_err "Failed to receive a request" err);
      g_object_unref c; g_free_query ].
Proof.
  intros Hr. unfold session_trace, run_session, on_incoming, deliveries, deliver,
    g_input_stream_read_all, on_req. simpl. by rewrite Hr.
Qed.

Lemma X4_read_failure_aborts_witness :
  let w := World (Sample.frame (Req AF_INET "example.com"))
                 (Some (Some "Socket I/O timed out"))
                 (Sample.answers [Sample.record 1 "93.184.216.34"]) true in
  requested (session_trace Sample.header w 7%nat) = [] ∧
  written (session_trace Sample.header w 7%nat) = [].
Proof.
  intros w.
  rewrite (X4_read_failure_aborts Sample.header w 7%nat (Some "Socket I/O timed out"));
    [|reflexivity].
  split; reflexivity.
Defined.

(** X5.  A body that is not JSON ends the session.  When the response body
    does not parse, [on_res] logs a warning, with the parser's message if
    there is one, and releases the session; nothing is written. *)
Theorem X5_invalid_json_aborts (h : nss_tls_h) (w : world) (c : GSocketConnection)
    (status : Z) (err : option string) :
  resolver w = soup_send_stream status (json_load_error err) →
  (∀ query,
     on_res query (resolver w) =
       ([ g_warning (with_err ("Failed to parse the result for " +:+ name (req query)) err);
          g_object_unref (connection query); g_free_query ], Closed)) ∧
  written (session_trace h w c) = [].
Proof.
  intros Hr. split; [intros query; by rewrite Hr|].
  rewrite session_written, Hr. by destruct (accepted h w c) as [[q1 url]|].
Qed.

Lemma X5_invalid_json_aborts_witness :
  let w := World (Sample.frame (Req AF_INET "example.com")) None
                 (soup_send_stream 502 (json_load_error (Some "unexpected character"))) true in
  written (session_trace Sample.header w 7%nat) = [].
Proof.
  intros w.
  destruct (X5_invalid_json_aborts Sample.header w 7%nat 502 (Some "unexpected character"))
    as [_ Hwr]; [reflexivity | exact Hwr].
Defined.

Lemma inet_pton_length af s dst :
  (NS_IN6ADDRSZ ≤ length dst)%nat → length (inet_pton af s dst).2 = length dst.
Proof.
  intros Hdst. unfold inet_pton, memcpy, NS_IN6ADDRSZ in *.
  destruct (af =? AF_INET).
  - destruct (inet_pton4 _) as [a|] eqn:Ha; [|done]. apply inet_pton4_length in Ha.
    simpl. rewrite length_app, length_take, length_drop.
    unfold NS_INADDRSZ in *. lia.
  - destruct (af =? AF_INET6); [|done].
    destruct (inet_pton6 _) as [a|] eqn:Ha; [|done]. apply inet_pton6_length in Ha.
    simpl. rewrite length_app, length_take, length_drop.
    unfold NS_IN6ADDRSZ in *. lia.
Qed.

Lemma on_answer_keeps index_ e query :
  (ok query = true → ok (on_answer index_ e query).2 = true) ∧
  ((NS_IN6ADDRSZ ≤ length (addr (res query)))%nat →
   length (addr (res (on_answer index_ e query).2)) = length (addr (res query))).
Proof.
  unfold on_answer.
  destruct (json_object_get_member _ "type") as [type_|]; [|done].
  destruct (negb _); [done|].
  destruct (json_object_get_member _ "data") as [data|]; [|done].
  destruct (json_node_get_string data) as [s|]; [|done].
  pose proof (inet_pton_length (af (req query)) s (addr (res query))) as Hlen.
  destruct (inet_pton _ _ _) as [r dst]. simpl in Hlen.
  by destruct (negb _).
Qed.

(** X6.  What the scan keeps.  Whatever the answer array holds and whatever
    the family, visiting it changes neither the request nor the wanted type
    nor the connection of the query; it never lowers a raised flag; and it
    never writes outside the address buffer: a buffer that has room for an
    IPv6 address keeps its size. *)
Theorem X6_scan_keeps (answers : list JsonNode) (query : nss_tls_query) :
  req (scan answers query) = req query ∧
  type (scan answers query) = type query ∧
  connection (scan answers query) = connection query ∧
  (ok query = true → ok (scan answers query) = true) ∧
  ((NS_IN6ADDRSZ ≤ length (addr (res query)))%nat →
   length (addr (res (scan answers query))) = length (addr (res query))).
Proof.
  destruct (scan_frame answers query) as [Hreq Htype].
  split; [done|]. split; [done|].
  split; [apply foreach_on_answer_connection|].
  revert query Hreq Htype. induction answers as [|e answers IH]; intros query _ _; [done|].
  rewrite scan_cons.
  destruct (on_answer_keeps 0 e query) as [Hok Hlen].
  destruct (scan_frame answers (on_answer 0 e query).2) as [Hreq Htype].
  destruct (IH _ Hreq Htype) as [IHok IHlen].
  split; [tauto|]. intros Hroom. rewrite IHlen; [tauto|]. rewrite Hlen; done.
Qed.

Lemma X6_scan_keeps_witness :
  let answers := [ Sample.record 28 "2001:db8::1"; Sample.record 28 "::ffff:1.2.3.4" ] in
  length (addr (res (scan answers Sample.query_AAAA))) = 16%nat.
Proof.
  intros answers.
  destruct (X6_scan_keeps answers Sample.query_AAAA) as (_ & _ & _ & _ & Hlen).
  rewrite Hlen; [reflexivity | vm_compute; lia].
Defined.

(** * The process *)

Section Deliveries.
Context (h : nss_tls_h) (NSS_TLS_SOCKET : string).

Lemma deliveries_Closed n w : deliveries h n w Closed = ([], Closed).
Proof. induction n as [|n IH]; [done|]. simpl. by rewrite IH. Qed.

Lemma deliveries_add j k w s :
  deliveries h (j + k) w s =
    let '(es, s') := deliveries h j w s in es +> deliveries h k w s'.
Proof.
  revert s. induction j as [|j IH]; intros s.
  - simpl. unfold after. by destruct (deliveries h k w s).
  - cbn [Nat.add deliveries]. destruct (deliver h w s) as [es1 s1]. rewrite IH.
    destruct (deliveries h j w s1) as [es2 s2]. unfold after. simpl.
    by rewrite app_assoc.
Qed.

Lemma deliveries_more j k w s :
  (deliveries h j w s).2 = Closed → deliveries h (j + k) w s = deliveries h j w s.
Proof.
  intros Hc. rewrite deliveries_add. destruct (deliveries h j w s) as [es s'].
  simpl in Hc. subst s'. rewrite deliveries_Closed. unfold after. simpl.
  by rewrite app_nil_r.
Qed.

Lemma deliver_no_release w s :
  (deliver h w s).2 ≠ Closed → Forall (λ e, ¬ is_release e) (deliver h w s).1.
Proof.
  destruct s as [q n | q | q |]; simpl; [| | done | done].
  - set (r := g_input_stream_read_all _ _ _). set (q' := set_req _ _).
    destruct (on_req_shape h q' r) as (logs & Hlogs & ->).
    destruct (accept h q' r) as [[q1 url]|]; [|done]. intros _. simpl.
    apply Forall_app. split; [by apply logs_no_release|]. repeat constructor. by intros [].
  - destruct (on_res_shape q (resolver w)) as (logs & Hlogs & ->).
    destruct (resolution q (resolver w)) as [q2|]; [|done]. intros _. simpl.
    apply Forall_app. split; [by apply logs_no_release|]. repeat constructor. by intros [].
Qed.

Lemma deliveries_no_release j w s :
  (deliveries h j w s).2 ≠ Closed → Forall (λ e, ¬ is_release e) (deliveries h j w s).1.
Proof.
  revert s. induction j as [|j IH]; intros s; [by constructor|]. simpl.
  pose proof (deliver_no_release w s) as Hd.
  destruct (deliver h w s) as [es1 s1]. specialize (IH s1).
  destruct (deliveries h j w s1) as [es2 s2] eqn:Hj. simpl in *. intros Hne.
  assert (s1 ≠ Closed) as Hs1.
  { intros ->. rewrite deliveries_Closed in Hj. by simplify_eq. }
  apply Forall_app. split; [by apply Hd | by apply IH].
Qed.

End Deliveries.

Lemma project_app c es1 es2 : project c (es1 ++ es2) = project c es1 ++ project c es2.
Proof. apply omap_app. Qed.

Lemma project_same c es : project c (in_session c <$> es) = es.
Proof.
  unfold project. induction es as [|e es IH]; [done|].
  csimpl. rewrite decide_True by done. csimpl. by rewrite IH.
Qed.

Lemma project_other c c' es : c' ≠ c → project c (in_session c' <$> es) = [].
Proof.
  intros Hne. unfold project. induction es as [|e es IH]; [done|].
  csimpl. by rewrite decide_False by done.
Qed.

Lemma lookup_store c c' s (m : gmap GSocketConnection session) :
  store c' s m !! c = if decide (c' = c) then waiting s else m !! c.
Proof.
  unfold store, waiting. destruct (decide (c' = c)) as [->|Hne].
  - destruct s; by rewrite ?lookup_insert_eq, ?lookup_delete_eq.
  - destruct s; by rewrite ?lookup_insert_ne, ?lookup_delete_ne.
Qed.


Section OneSession.
Context (h : nss_tls_h) (worlds : GSocketConnection → world) (c : GSocketConnection).

Lemma iterate_app evs1 evs2 loop :
  iterate h worlds (evs1 ++ evs2) loop =
    let '(es1, loop) := iterate h worlds evs1 loop in
    let '(es2, loop) := iterate h worlds evs2 loop in
    (es1 ++ es2, loop).
Proof.
  revert loop. induction evs1 as [|ev evs1 IH]; intros loop; simpl.
  - by destruct (iterate h worlds evs2 loop).
  - destruct (dispatch h worlds ev loop) as [e0 l0]. rewrite IH.
    destruct (iterate h worlds evs1 l0) as [e1 l1].
    destruct (iterate h worlds evs2 l1) as [e2 l2]. by rewrite app_assoc.
Qed.

(** The loop over iterations is one pass over the events it gets to. *)
Lemma run_as_iterate its loop :
  ∃ n, g_main_loop_run h worlds its loop = iterate h worlds (concat (take n its)) loop.
Proof.
  revert loop. induction its as [|evs its IH]; intros loop; [by exists 0%nat|].
  simpl. destruct (iterate h worlds evs loop) as [es1 loop1] eqn:H1.
  destruct (is_running loop1).
  - destruct (IH loop1) as [n Hn]. exists (S n). simpl.
    rewrite iterate_app, H1, Hn. done.
  - exists 1%nat. cbn [take concat]. rewrite take_0. simpl. rewrite app_nil_r. by rewrite H1.
Qed.

(** What a dispatch does to the session of [c]. *)
Lemma dispatch_local ev loop :
  project c (dispatch h worlds ev loop).1 = (local_step h worlds c ev (pending loop !! c)).1 ∧
  pending (dispatch h worlds ev loop).2 !! c = (local_step h worlds c ev (pending loop !! c)).2.
Proof.
  destruct ev as [c' | c' | sig]; unfold dispatch, local_step.
  - destruct (on_incoming h c') as [es s] eqn:Hin. cbn [fst snd pending].
    rewrite lookup_store. destruct (decide (c' = c)) as [->|Hne].
    + rewrite Hin. split; [apply project_same|done].
    + split; [by apply project_other|done].
  - destruct (decide (c' = c)) as [->|Hne].
    + destruct (pending loop !! c) as [s|] eqn:Hp. 2: { split; [done | exact Hp]. }
      destruct (deliver h (worlds c) s) as [es s']. cbn [fst snd pending].
      rewrite lookup_store, decide_True by done. split; [apply project_same|done].
    + destruct (pending loop !! c') as [s|]; [|done].
      destruct (deliver h (worlds c') s) as [es s']. cbn [fst snd pending].
      rewrite lookup_store, decide_False by done. split; [by apply project_other|done].
  - destruct (existsb _ _); simpl; done.
Qed.

Lemma iterate_local evs loop :
  project c (iterate h worlds evs loop).1 = (local h worlds c evs (pending loop !! c)).1 ∧
  pending (iterate h worlds evs loop).2 !! c = (local h worlds c evs (pending loop !! c)).2.
Proof.
  revert loop. induction evs as [|ev evs IH]; intros loop; [done|]. simpl.
  destruct (dispatch_local ev loop) as [Hd1 Hd2].
  destruct (dispatch h worlds ev loop) as [es1 loop1].
  destruct (local_step h worlds c ev (pending loop !! c)) as [ls1 o1]. simpl in *.
  destruct (IH loop1) as [IH1 IH2]. rewrite Hd2 in IH1, IH2.
  destruct (iterate h worlds evs loop1) as [es2 loop2].
  destruct (local h worlds c evs o1) as [ls2 o2]. simpl in *.
  by rewrite project_app, Hd1, IH1.
Qed.

Lemma local_idle evs :
  c ∉ connections evs → local h worlds c evs None = ([], None).
Proof.
  induction evs as [|ev evs IH]; intros Hc; [done|].
  assert ((c ∉ connections evs) ∧ (ev ≠ ev_incoming c)) as [Hc2 Hev].
  { unfold connections in *. destruct ev; simpl in *; set_solver. }
  assert (local_step h worlds c ev None = ([], None)) as Hstep.
  { destruct ev as [c' | c' | sig]; simpl; [|by destruct (decide _)|done].
    rewrite decide_False; [done|congruence]. }
  simpl. by rewrite Hstep, (IH Hc2).
Qed.

(** A session that waits, and events that accept no connection [c]: some
    number of completions is delivered to it. *)
Lemma local_waiting evs s :
  c ∉ connections evs → waiting s = Some s →
  ∃ j, (local h worlds c evs (Some s)).1 = (deliveries h j (worlds c) s).1 ∧
       (local h worlds c evs (Some s)).2 = waiting (deliveries h j (worlds c) s).2.
Proof.
  revert s. induction evs as [|ev evs IH]; intros s Hc Hs; [by exists 0%nat|].
  assert ((c ∉ connections evs) ∧ (ev ≠ ev_incoming c)) as [Hc2 Hev].
  { unfold connections in *. destruct ev; simpl in *; set_solver. }
  assert (local_step h worlds c ev (Some s) = ([], Some s) →
            ∃ j, (local h worlds c (ev :: evs) (Some s)).1 = (deliveries h j (worlds c) s).1 ∧
                 (local h worlds c (ev :: evs) (Some s)).2 = waiting (deliveries h j (worlds c) s).2)
    as Hnop.
  { intros Hstep. simpl. rewrite Hstep.
    destruct (IH s Hc2 Hs) as (j & H1 & H2). exists j.
    by destruct (local h worlds c evs (Some s)). }
  destruct ev as [c' | c' | sig].
  - apply Hnop. simpl. rewrite decide_False; [done|congruence].
  - destruct (decide (c' = c)) as [->|Hne].
    2: { apply Hnop. simpl. by rewrite decide_False. }
    cbn [local local_step]. rewrite decide_True by done.
    destruct (deliver h (worlds c) s) as [es1 s1] eqn:Hd.
    destruct (waiting s1) as [s1'|] eqn:Hw.
    + assert (s1' = s1) as -> by (destruct s1; simpl in Hw; congruence).
      destruct (IH s1 Hc2 Hw) as (j & H1 & H2). exists (S j). cbn [deliveries]. rewrite Hd.
      destruct (local h worlds c evs (Some s1)) as [ls o].
      destruct (deliveries h j (worlds c) s1) as [ds sd]. simpl in *. by subst.
    + assert (s1 = Closed) as -> by (by destruct s1).
      exists 1%nat. cbn [deliveries]. rewrite Hd.
      rewrite (local_idle evs Hc2). simpl. by rewrite app_nil_r.
  - by apply Hnop.
Qed.

(** Events that accept each connection once: the session of [c] is not
    started, or it is [on_incoming] and some number of completions. *)
Lemma local_fresh evs :
  NoDup (connections evs) →
  local h worlds c evs None = ([], None) ∨
  ∃ j, (local h worlds c evs None).1 = ((on_incoming h c).1 ++ (deliveries h j (worlds c) (on_incoming h c).2).1) ∧
       (local h worlds c evs None).2 = waiting (deliveries h j (worlds c) (on_incoming h c).2).2.
Proof.
  induction evs as [|ev evs IH]; intros Hnd; [by left|].
  destruct ev as [c' | c' | sig].
  - change (connections (ev_incoming c' :: evs)) with (c' :: connections evs) in Hnd.
    apply NoDup_cons in Hnd as [Hc Hnd].
    destruct (decide (c' = c)) as [->|Hne].
    + right. cbn [local local_step]. rewrite decide_True by done.
      destruct (on_incoming h c) as [es s] eqn:Hin.
      assert (waiting s = Some s) as Hs.
      { unfold on_incoming in Hin. unfold after in Hin. simpl in Hin. by simplify_eq. }
      rewrite Hs. destruct (local_waiting evs s Hc Hs) as (j & H1 & H2). exists j.
      destruct (local h worlds c evs (Some s)) as [ls o]. simpl in *. by subst.
    + cbn [local local_step]. rewrite decide_False by done.
      destruct (IH Hnd) as [-> | (j & H1 & H2)]; [by left|].
      right. exists j. by destruct (local h worlds c evs None).
  - cbn [local local_step].
    change (connections (ev_completion c' :: evs)) with (connections evs) in Hnd.
    assert ((if decide (c' = c) then ([], None) else ([], None))
            = (([], None) : list effect * option session)) as -> by (by destruct (decide _)).
    destruct (IH Hnd) as [-> | (j & H1 & H2)]; [by left|].
    right. exists j. by destruct (local h worlds c evs None).
  - cbn [local local_step].
    change (connections (ev_signal sig :: evs)) with (connections evs) in Hnd.
    destruct (IH Hnd) as [-> | (j & H1 & H2)]; [by left|].
    right. exists j. by destruct (local h worlds c evs None).
Qed.
End OneSession.

Section SessionsInMain.
Context (h : nss_tls_h) (NSS_TLS_SOCKET : string).

Lemma connections_app evs1 evs2 :
  connections (evs1 ++ evs2) = connections evs1 ++ connections evs2.
Proof. apply omap_app. Qed.

Lemma NoDup_connections_take (its : list (list event)) n :
  NoDup (connections (concat its)) → NoDup (connections (concat (take n its))).
Proof.
  rewrite <- (take_drop n its) at 1. rewrite concat_app, connections_app.
  by intros [? _]%NoDup_app.
Qed.

Lemma project_main worlds its c :
  project c (main h NSS_TLS_SOCKET worlds its).1 =
  project c (g_main_loop_run h worlds its (g_main_loop_new_state)).1.
Proof.
  unfold main. destruct (g_main_loop_run _ _ _ _) as [es loop].
  destruct (is_running loop); cbn [fst]; rewrite !project_app; simpl;
    by rewrite ?app_nil_r.
Qed.

(** The session of [c] in a run of [main]: its effects and what is left of
    it are those of the local run over the events the loop got to. *)
Lemma main_local worlds its c :
  NoDup (connections (concat its)) →
  ∃ evs, NoDup (connections evs) ∧
    project c (main h NSS_TLS_SOCKET worlds its).1 = (local h worlds c evs None).1 ∧
    pending (main_loop_end h worlds its) !! c = (local h worlds c evs None).2.
Proof.
  intros Hnd. rewrite project_main. unfold main_loop_end.
  destruct (run_as_iterate h worlds its g_main_loop_new_state) as [n ->].
  exists (concat (take n its)). split; [by apply NoDup_connections_take|].
  apply (iterate_local h worlds c).
Qed.

Lemma on_incoming_waits c : waiting (on_incoming h c).2 = Some (on_incoming h c).2.
Proof. done. Qed.

Lemma on_incoming_no_release c : Forall (λ e, ¬ is_release e) (on_incoming h c).1.
Proof. repeat constructor; by intros []. Qed.

Lemma session_trace_deliveries w c j :
  (deliveries h j w (on_incoming h c).2).2 = Closed →
  (on_incoming h c).1 ++ (deliveries h j w (on_incoming h c).2).1 = session_trace h w c.
Proof.
  intros Hj. pose proof (session_closed h w c) as H3.
  unfold session_trace, run_session in *.
  destruct (on_incoming h c) as [es s]. cbn [fst snd] in *.
  unfold after in *. cbn [fst snd] in *. f_equal.
  pose proof (deliveries_more h j 3 w s Hj) as E1.
  pose proof (deliveries_more h 3 j w s H3) as E2.
  rewrite Nat.add_comm in E2. congruence.
Qed.

(** X10.  A finished session did what it does alone.  In a run of [main]
    in which connection objects are distinct, however the events of the
    sessions are interleaved: when no session waits under connection [c] at
    the end, the effects under [c] are either none (no session was started
    on it) or exactly the trace of the session run on its own. *)
Theorem X10_finished_session_in_main worlds its c :
  NoDup (connections (concat its)) →
  pending (main_loop_end h worlds its) !! c = None →
  project c (main h NSS_TLS_SOCKET worlds its).1 = [] ∨
  project c (main h NSS_TLS_SOCKET worlds its).1 = session_trace h (worlds c) c.
Proof.
  intros Hnd Hend. destruct (main_local worlds its c Hnd) as (evs & Hevs & -> & Hp).
  rewrite Hp in Hend.
  destruct (local_fresh h worlds c evs Hevs) as [-> | (j & -> & Hj)]; [by left|].
  right. apply session_trace_deliveries.
  rewrite Hj in Hend. by destruct (deliveries h j (worlds c) (on_incoming h c).2).2.
Qed.

(** X11.  A session that still waits has released nothing.  In a run of
    [main] in which connection objects are distinct: when a session still
    waits under connection [c] at the end (the iterations are used up, or
    the loop was told to quit), no effect under [c] releases the connection
    or the query.  [main] does not release the sessions in flight when it
    returns. *)
Theorem X11_waiting_session_not_released worlds its c s :
  NoDup (connections (concat its)) →
  pending (main_loop_end h worlds its) !! c = Some s →
  Forall (λ e, ¬ is_release e) (project c (main h NSS_TLS_SOCKET worlds its).1).
Proof.
  intros Hnd Hend. destruct (main_local worlds its c Hnd) as (evs & Hevs & -> & Hp).
  rewrite Hp in Hend.
  destruct (local_fresh h worlds c evs Hevs) as [E | (j & -> & Hj)].
  { by rewrite E in Hend. }
  apply Forall_app. split; [apply on_incoming_no_release|].
  apply deliveries_no_release. rewrite Hj in Hend.
  intros Hc. by rewrite Hc in Hend.
Qed.
End SessionsInMain.

Section Isolation.
Context (h : nss_tls_h) (NSS_TLS_SOCKET : string).







End Isolation.

Section MainFrame.
Context (h : nss_tls_h) (NSS_TLS_SOCKET : string) (worlds : GSocketConnection → world).











End MainFrame.


Lemma X10_finished_session_in_main_witness :
  project 1%nat (main Sample.header SampleRun.socket SampleRun.worlds SampleRun.iterations).1
  = session_trace Sample.header (SampleRun.worlds 1%nat) 1%nat.
Proof.
  destruct (X10_finished_session_in_main Sample.header SampleRun.socket
              SampleRun.worlds SampleRun.iterations 1%nat) as [Hnone | Hall].
  - apply (bool_decide_unpack _). vm_compute. exact I.
  - vm_compute. reflexivity.
  - vm_compute in Hnone. discriminate Hnone.
  - exact Hall.
Defined.

Lemma X11_waiting_session_not_released_witness :
  Forall (λ e, ¬ is_release e)
    (project 1%nat (main Sample.header SampleRun.socket SampleRun.worlds SampleRun.cut_short).1).
Proof.
  eapply (X11_waiting_session_not_released Sample.header SampleRun.socket
            SampleRun.worlds SampleRun.cut_short 1%nat).
  - apply (bool_decide_unpack _). vm_compute. exact I.
  - vm_compute. reflexivity.
Defined.

(** * The URL of a request *)

Lemma list_ascii_of_string_app s1 s2 :
  list_ascii_of_string (s1 +:+ s2) = list_ascii_of_string s1 ++ list_ascii_of_string s2.
Proof. induction s1 as [|ch s1 IH]; [done|]. simpl. by rewrite IH. Qed.

Lemma append_inv_tail s1 s2 t : s1 +:+ t = s2 +:+ t → s1 = s2.
Proof.
  intros H. apply (f_equal list_ascii_of_string) in H.
  rewrite !list_ascii_of_string_app in H. apply app_inv_tail in H.
  rewrite <- (string_of_list_ascii_of_string s1), <- (string_of_list_ascii_of_string s2).
  by rewrite H.
Qed.

Lemma mnemonics_differ n1 n2 : n1 +:+ "&type=A" ≠ n2 +:+ "&type=AAAA".
Proof.
  intros H. apply (f_equal list_ascii_of_string) in H.
  rewrite !list_ascii_of_string_app in H.
  apply (f_equal reverse) in H. rewrite !reverse_app in H.
  discriminate H.
Qed.

Lemma buildQuery_inj h r1 r2 url t1 t2 :
  buildQuery h r1 = Some (url, t1) → buildQuery h r2 = Some (url, t2) → r1 = r2.
Proof.
  unfold buildQuery, type_of_family. intros H1 H2.
  destruct r1 as [af1 n1], r2 as [af2 n2]. simpl in *.
  destruct (Z.eqb_spec af1 AF_INET), (Z.eqb_spec af2 AF_INET); simpl in *;
    try destruct (Z.eqb_spec af1 AF_INET6); try destruct (Z.eqb_spec af2 AF_INET6);
    simpl in *; simplify_eq.
  all: repeat match goal with
       | H : _ +:+ _ = _ +:+ _ |- _ => apply (inj (String.append _)) in H
       end.
  - f_equal. by eapply append_inv_tail.
  - by apply mnemonics_differ in H.
  - symmetry in H. by apply mnemonics_differ in H.
  - f_equal. by eapply append_inv_tail.
Qed.

(** X7.  The URL tells the request.  The name is put into the URL as it
    stands and the type mnemonic behind it, so two sessions of the daemon
    that send a request for the same URL had received the same request, name
    and family. *)
Theorem X7_url_determines_request (h : nss_tls_h) (w1 w2 : world)
    (c1 c2 : GSocketConnection) (url : string) :
  requested (session_trace h w1 c1) = [ ("GET", url) ] →
  requested (session_trace h w2 c2) = [ ("GET", url) ] →
  received h w1 = received h w2.
Proof.
  rewrite !session_requested. intros H1 H2.
  destruct (accepted h w1 c1) as [[q1 u1]|] eqn:Ha1; [|done].
  destruct (accepted h w2 c2) as [[q2 u2]|] eqn:Ha2; [|done].
  injection H1 as ->. injection H2 as ->.
  pose proof (accepted_inv _ _ _ _ _ Ha1) as (<- & _).
  pose proof (accepted_inv _ _ _ _ _ Ha2) as (<- & _).
  apply accept_inv in Ha1 as (_ & Hb1 & Hq1 & _).
  apply accept_inv in Ha2 as (_ & Hb2 & Hq2 & _).
  rewrite Hq1, Hq2. simpl. by eapply buildQuery_inj.
Qed.

Lemma X7_url_determines_request_witness :
  let w1 := World (Sample.frame (Req AF_INET "example.com")) None
                  (Sample.answers [Sample.record 1 "93.184.216.34"]) true in
  let w2 := World (Sample.frame (Req AF_INET "example.com") ++ [0; 0]) None
                  (soup_send_error None) false in
  received Sample.header w1 = received Sample.header w2.
Proof.
  intros w1 w2.
  apply (X7_url_determines_request Sample.header w1 w2 7%nat 8%nat
           "https://dns.example/dns-query?ct=application/dns-json&name=example.com&type=A");
    reflexivity.
Defined.
